(** * mediamtx, package core: the control API, the RTSP session and the
      WebRTC connection

    A shallow embedding of [internal/core/api.go], [internal/core/rtsp_session.go]
    and [internal/core/webrtc_conn.go], and the properties the specification
    states about them.

    Part I holds the models (one module per source file), Part II the
    lemmas and theorems. *)

From Stdlib Require Import Ascii String ZArith.
From stdpp Require Import base option list gmap strings fin_maps numbers.

Set Warnings "-register-all".

#[local] Open Scope Z_scope.
#[local] Open Scope string_scope.
#[local] Open Scope list_scope.

(* ====================================================================== *)
(** * Part I: models *)
(* ====================================================================== *)

(** ** internal/core/api.go *)

Module api.

(** *** Package reflect, as far as [fillStruct] and
        [generateStructWithOptionalFields] use it *)

(** [reflect.Type]: a named (non-pointer) type or a pointer type. *)
Inductive GoType : Type :=
| TNamed (name : string)
| TPtrTo (elem : GoType).

#[global] Instance GoType_eq_dec : EqDecision GoType.
Proof. solve_decision. Defined.

(** [reflect.Kind]; the code only asks whether a kind is [reflect.Ptr]. *)
Inductive Kind : Type := Ptr | OtherKind.

Definition kindOf (t : GoType) : Kind :=
  match t with
  | TPtrTo _ => Ptr
  | TNamed _ => OtherKind
  end.

(** [reflect.StructField]. [Tag] is what [f.Tag.Get("json")] returns. *)
Record StructField : Type := mkStructField {
  Name : string;
  Typ : GoType;
  Tag : string;
}.

(** Go values of configuration fields; [VPtr None] is a nil pointer. *)
Inductive Value : Type :=
| VBool (b : bool)
| VInt (n : Z)
| VString (s : string)
| VStrings (l : list string)
| VPtr (p : option Value).

(** A struct value as reflection sees it: its fields, in declaration order,
    each with its descriptor. *)
Abbreviation Struct := (list (StructField * Value)).

(** [v.FieldByName(name)]: [None] stands for the zero [reflect.Value]. *)
Definition FieldByName (s : Struct) (name : string) : option (StructField * Value) :=
  List.find (fun fv => String.eqb (Name (fst fv)) name) s.

(** The store performed by [f.Set(x)] on the field called [name]. *)
Fixpoint setField (s : Struct) (name : string) (v : Value) : Struct :=
  match s with
  | [] => []
  | (f, x) :: s' =>
      if String.eqb (Name f) name then (f, v) :: s'
      else (f, x) :: setField s' name v
  end.

(** The loop of [fillStruct] over the fields of [source], on the struct
    [dest] points to. The boolean is [false] when a reflect call panicked:
    [IsNil] on a value that is no pointer, [Set] on the zero Value, or [Set]
    with a value whose type is not the type of the field. Fields set before
    the panic stay set. *)
Fixpoint fillStruct_loop (dest source : Struct) : Struct * bool :=
  match source with
  | [] => (dest, true)
  | (sf, fnew) :: rest =>
      match fnew with
      | VPtr None => fillStruct_loop dest rest
      | VPtr (Some x) =>
          match FieldByName dest (Name sf) with
          | Some (f, _) =>
              match kindOf (Typ f) with
              | Ptr =>
                  (* f.Set(fnew) *)
                  if decide (Typ sf = Typ f)
                  then fillStruct_loop (setField dest (Name sf) fnew) rest
                  else (dest, false)
              | OtherKind =>
                  (* f.Set(fnew.Elem()) *)
                  if decide (Typ sf = TPtrTo (Typ f))
                  then fillStruct_loop (setField dest (Name sf) x) rest
                  else (dest, false)
              end
          | None => (dest, false)
          end
      | _ => (dest, false)
      end
  end.

(** [generateStructWithOptionalFields(model)]: the struct type with one
    pointer field for every field of [model] whose json tag is neither "-"
    nor "paths", and [reflect.New] of it: every pointer nil. *)
Definition optionalField (f : StructField) : StructField :=
  {| Name := Name f; Typ := TPtrTo (Typ f); Tag := Tag f |}.

(** [j != "-" && j != "paths"]. *)
Definition settable (f : StructField) : bool :=
  negb (String.eqb (Tag f) "-") && negb (String.eqb (Tag f) "paths").

Definition generateStructWithOptionalFields (model : list StructField) : Struct :=
  (fun f => (optionalField f, VPtr None)) <$> List.filter settable model.

(** The value of the field called [name], and the names of the fields. *)
Definition fieldValue (s : Struct) (name : string) : option Value :=
  snd <$> FieldByName s name.


(** *** Package encoding/json, as far as the handlers use it *)

Inductive JSON : Type :=
| JNull
| JBool (b : bool)
| JNumber (n : Z)
| JString (s : string)
| JArray (l : list JSON)
| JObject (members : list (string * JSON)).

Definition isNull (j : JSON) : bool :=
  match j with JNull => true | _ => false end.

(** The parts of encoding/json and reflect that depend on the Go types of
    the fields, which package conf declares: decoding a JSON value that is
    not null into a fresh value of a type ([None]: an error), encoding a
    value, the key comparison of the decoder, and [reflect.Zero]. *)
Class GoRuntime : Type := {
  unmarshal : GoType -> JSON -> option Value;
  marshal : GoType -> Value -> JSON;
  equalFold : string -> string -> bool;
  zeroValue : GoType -> Value;
}.

Fixpoint beforeComma (s : string) : string :=
  match s with
  | EmptyString => EmptyString
  | String c s' => if Ascii.eqb c ","%char then EmptyString else String c (beforeComma s')
  end.

(** The key of a field in a JSON object: the name its tag gives, or the
    name of the field; a field tagged "-" has none. *)
Definition jsonVisible (f : StructField) : bool := negb (String.eqb (Tag f) "-").

Definition jsonName (f : StructField) : string :=
  let n := beforeComma (Tag f) in
  if String.eqb n "" then Name f else n.

Section Json.
Context `{RT : GoRuntime}.

(** The field an object key is decoded into: the field of that exact key,
    or else the first field whose key matches up to case; [None]: the
    member is skipped. *)
Definition findField (s : Struct) (key : string) : option StructField :=
  let fs := List.filter jsonVisible (fst <$> s) in
  match List.find (fun f => String.eqb (jsonName f) key) fs with
  | Some f => Some f
  | None => List.find (fun f => equalFold (jsonName f) key) fs
  end.

(** Decoding the members of an object, left to right, into a struct of
    pointer fields: null sets the pointer to nil, any other value is decoded
    into a fresh pointee (null leaves a field that is no pointer as it is). *)
Fixpoint decodeObject (members : list (string * JSON)) (s : Struct) : option Struct :=
  match members with
  | [] => Some s
  | (key, j) :: rest =>
      match findField s key with
      | None => decodeObject rest s
      | Some f =>
          match Typ f with
          | TPtrTo t =>
              if isNull j then decodeObject rest (setField s (Name f) (VPtr None))
              else
                match unmarshal t j with
                | Some v => decodeObject rest (setField s (Name f) (VPtr (Some v)))
                | None => None
                end
          | TNamed _ =>
              if isNull j then decodeObject rest s
              else
                match unmarshal (Typ f) j with
                | Some v => decodeObject rest (setField s (Name f) v)
                | None => None
                end
          end
      end
  end.

(** [json.NewDecoder(body).Decode(in)]. The body is [None] when it holds no
    JSON value; null leaves [in] as it is; a value that is no object is an
    error. *)
Definition Decode (body : option JSON) (s : Struct) : option Struct :=
  match body with
  | None => None
  | Some JNull => Some s
  | Some (JObject members) => decodeObject members s
  | Some _ => None
  end.





End Json.

(** *** Package conf, as far as the handlers use it *)

(** A pointer: an index into the store of allocated objects. *)
Abbreviation loc := nat.

(** [conf.Conf]: the global fields, and [Paths map[string]*PathConf], a
    reference to a map whose values are pointers. *)
Record Conf : Type := mkConf {
  fields : Struct;
  Paths : loc;
}.

(** What the store holds: [conf.Conf] structs, [map[string]*PathConf] maps
    and [conf.PathConf] structs. *)
Inductive Object : Type :=
| ObjConf (c : Conf)
| ObjMap (m : gmap string loc)
| ObjPathConf (pc : Struct).

Abbreviation Heap := (list Object).

(** A configuration as a value: what a [*conf.Conf] denotes in a store. *)
Record ConfView : Type := mkConfView {
  vfields : Struct;
  vpaths : gmap string Struct;
}.

Definition derefPathConf (h : Heap) (l : loc) : option Struct :=
  match h !! l with
  | Some (ObjPathConf pc) => Some pc
  | _ => None
  end.

Definition view (h : Heap) (p : loc) : option ConfView :=
  match h !! p with
  | Some (ObjConf c) =>
      match h !! Paths c with
      | Some (ObjMap m) =>
          if decide (map_Forall (fun _ l => is_Some (derefPathConf h l)) m)
          then Some {| vfields := fields c; vpaths := omap (derefPathConf h) m |}
          else None
      | _ => None
      end
  | _ => None
  end.

(** The declarations of package conf that are not in this file: the fields
    of [Conf] other than [Paths], the fields of [PathConf], and the
    validation the method [Check] of [*Conf], which returns an error ([false]) or nil. *)
Class ConfPackage : Type := {
  confFields : list StructField;
  pathConfFields : list StructField;
  Check : ConfView -> bool;
}.

(** The field [Paths] of [conf.Conf], with the json key the specification
    gives it. *)
Definition pathsField : StructField :=
  {| Name := "Paths"; Typ := TNamed "map[string]*conf.PathConf"; Tag := "paths" |}.

(** *** The handlers *)

Definition StatusOK : Z := 200.
Definition StatusBadRequest : Z := 400.

(** What a handler leaves on the connection: a status, a status with a JSON
    body, or nothing when it panicked. *)
Inductive Response : Type :=
| Status (code : Z)
| StatusJSON (code : Z) (obj : JSON)
| Panicked.

(** The [api] struct and what it acts on: the store, [a.conf], and the
    configurations handed to [a.parent.apiConfigSet], oldest first. Every
    handler runs with [a.mutex] held, hence as one step. *)
Record World : Type := mkWorld {
  heap : Heap;
  conf : loc;
  apiConfigSet : list loc;
}.

(** A handler either goes on with a value or has returned a response. *)
Inductive Step (T : Type) : Type :=
| Next (x : T)
| Return (r : Response).
Arguments Next {T} x.
Arguments Return {T} r.

Record M (T : Type) : Type := mkM { run : World -> Step T * World }.
Arguments mkM {T} run.
Arguments run {T} m w.

#[global] Instance M_ret : MRet M := fun T x => mkM (fun w => (Next x, w)).
#[global] Instance M_bind : MBind M := fun T U k m =>
  mkM (fun w =>
         match run m w with
         | (Next x, w') => run (k x) w'
         | (Return r, w') => (Return r, w')
         end).

Definition AbortWithStatus {T} (code : Z) : M T := mkM (fun w => (Return (Status code), w)).
Definition panic {T} : M T := mkM (fun w => (Return Panicked, w)).

Definition getConf : M loc := mkM (fun w => (Next (conf w), w)).
Definition setConf (p : loc) : M unit :=
  mkM (fun w => (Next tt, {| heap := heap w; conf := p; apiConfigSet := apiConfigSet w |})).
Definition go_apiConfigSet (p : loc) : M unit :=
  mkM (fun w => (Next tt, {| heap := heap w; conf := conf w; apiConfigSet := apiConfigSet w ++ [p] |})).

Definition alloc (o : Object) : M loc :=
  mkM (fun w => (Next (length (heap w)),
                 {| heap := heap w ++ [o]; conf := conf w; apiConfigSet := apiConfigSet w |})).
Definition load (l : loc) : M Object :=
  mkM (fun w => match heap w !! l with
                | Some o => (Next o, w)
                | None => (Return Panicked, w)
                end).
Definition store (l : loc) (o : Object) : M unit :=
  mkM (fun w => (Next tt, {| heap := <[l := o]> (heap w); conf := conf w; apiConfigSet := apiConfigSet w |})).

Definition loadConf (p : loc) : M Conf :=
  o ← load p; match o with ObjConf c => mret c | _ => panic end.
Definition loadMap (p : loc) : M (gmap string loc) :=
  o ← load p; match o with ObjMap m => mret m | _ => panic end.
Definition loadPathConf (p : loc) : M Struct :=
  o ← load p; match o with ObjPathConf pc => mret pc | _ => panic end.

(** Modelled from the spec: [(Conf).Clone], which package conf defines. The
    handlers build the new configuration "on a clone": a copy that shares
    no struct and no map with the configuration it was taken from. *)
Fixpoint clonePaths (entries : list (string * loc)) : M (gmap string loc) :=
  match entries with
  | [] => mret ∅
  | (name, l) :: rest =>
      m ← clonePaths rest;
      pc ← loadPathConf l;
      l' ← alloc (ObjPathConf pc);
      mret (<[name := l']> m)
  end.

Definition Clone (p : loc) : M loc :=
  c ← loadConf p;
  m ← loadMap (Paths c);
  m' ← clonePaths (map_to_list m);
  mp ← alloc (ObjMap m');
  alloc (ObjConf {| fields := fields c; Paths := mp |}).

(** [fillStruct(dest, source)], [dest] a [*conf.Conf] or a [*conf.PathConf]. *)
Definition fillStruct (dest : loc) (source : Struct) : M unit :=
  o ← load dest;
  match o with
  | ObjConf c =>
      let '(fs, ok) := fillStruct_loop (fields c) source in
      store dest (ObjConf {| fields := fs; Paths := Paths c |});;
      if ok then mret tt else panic
  | ObjPathConf pc =>
      let '(fs, ok) := fillStruct_loop pc source in
      store dest (ObjPathConf fs);;
      if ok then mret tt else panic
  | ObjMap _ => panic
  end.

Section Handlers.
Context `{RT : GoRuntime} `{CP : ConfPackage}.

(** [reflect.TypeOf(conf.Conf{})] and [reflect.TypeOf(conf.PathConf{})]. *)
Definition confType : list StructField := confFields ++ [pathsField].

(** [loadConfData] and [loadConfPathData]; [None] is the error. *)
Definition loadConfData (body : option JSON) : option Struct :=
  Decode body (generateStructWithOptionalFields confType).

Definition loadConfPathData (body : option JSON) : option Struct :=
  Decode body (generateStructWithOptionalFields pathConfFields).

(** [newConf.Check()]. *)
Definition Conf_Check (p : loc) : M bool :=
  mkM (fun w => match view (heap w) p with
                | Some v => (Next (Check v), w)
                | None => (Return Panicked, w)
                end).

(** [&conf.PathConf{}]. *)
Definition newPathConf : M loc :=
  alloc (ObjPathConf ((fun f => (f, zeroValue (Typ f))) <$> pathConfFields)).



Definition onConfigSet (body : option JSON) : M Response :=
  match loadConfData body with
  | None => AbortWithStatus StatusBadRequest
  | Some in_ =>
      c ← getConf;
      newConf ← Clone c;
      fillStruct newConf in_;;
      ok ← Conf_Check newConf;
      if negb ok then AbortWithStatus StatusBadRequest
      else
        setConf newConf;;
        go_apiConfigSet newConf;;
        mret (Status StatusOK)
  end.

(** [len(name) < 2 || name[0] != '/'], and [name[1:]]. *)
Definition badName (name : string) : bool :=
  orb (Z.of_nat (String.length name) <? 2)%Z
      (negb (match String.get 0 name with Some c => Ascii.eqb c "/"%char | None => false end)).

Definition stripSlash (name : string) : string :=
  match name with
  | String _ rest => rest
  | EmptyString => EmptyString
  end.

Definition onConfigPathsAdd (param : string) (body : option JSON) : M Response :=
  if badName param then AbortWithStatus StatusBadRequest
  else
    let name := stripSlash param in
    match loadConfPathData body with
    | None => AbortWithStatus StatusBadRequest
    | Some in_ =>
        c ← getConf;
        newConf ← Clone c;
        nc ← loadConf newConf;
        paths ← loadMap (Paths nc);
        match paths !! name with
        | Some _ => AbortWithStatus StatusBadRequest
        | None =>
            newConfPath ← newPathConf;
            fillStruct newConfPath in_;;
            store (Paths nc) (ObjMap (<[name := newConfPath]> paths));;
            ok ← Conf_Check newConf;
            if negb ok then AbortWithStatus StatusBadRequest
            else
              setConf newConf;;
              go_apiConfigSet newConf;;
              mret (Status StatusOK)
        end
    end.

Definition onConfigPathsEdit (param : string) (body : option JSON) : M Response :=
  if badName param then AbortWithStatus StatusBadRequest
  else
    let name := stripSlash param in
    match loadConfPathData body with
    | None => AbortWithStatus StatusBadRequest
    | Some in_ =>
        c ← getConf;
        newConf ← Clone c;
        nc ← loadConf newConf;
        paths ← loadMap (Paths nc);
        match paths !! name with
        | None => AbortWithStatus StatusBadRequest
        | Some newConfPath =>
            fillStruct newConfPath in_;;
            ok ← Conf_Check newConf;
            if negb ok then AbortWithStatus StatusBadRequest
            else
              setConf newConf;;
              go_apiConfigSet newConf;;
              mret (Status StatusOK)
        end
    end.

Definition onConfigPathsDelete (param : string) : M Response :=
  if badName param then AbortWithStatus StatusBadRequest
  else
    let name := stripSlash param in
    c ← getConf;
    newConf ← Clone c;
    nc ← loadConf newConf;
    paths ← loadMap (Paths nc);
    match paths !! name with
    | None => AbortWithStatus StatusBadRequest
    | Some _ =>
        store (Paths nc) (ObjMap (delete name paths));;
        ok ← Conf_Check newConf;
        if negb ok then AbortWithStatus StatusBadRequest
        else
          setConf newConf;;
          go_apiConfigSet newConf;;
          mret (Status StatusOK)
    end.


(** The routes [newAPI] registers for the endpoints that change the
    configuration, each with the parameter and the body of a request. *)
Inductive Endpoint : Type :=
| ConfigSet (body : option JSON)             (* POST /v1/config/set *)
| ConfigPathsAdd (name : string) (body : option JSON)   (* POST /v1/config/paths/add/*name *)
| ConfigPathsEdit (name : string) (body : option JSON)  (* POST /v1/config/paths/edit/*name *)
| ConfigPathsRemove (name : string).         (* POST /v1/config/paths/remove/*name *)

Definition handlerOf (e : Endpoint) : M Response :=
  match e with
  | ConfigSet body => onConfigSet body
  | ConfigPathsAdd name body => onConfigPathsAdd name body
  | ConfigPathsEdit name body => onConfigPathsEdit name body
  | ConfigPathsRemove name => onConfigPathsDelete name
  end.

(** The tail the four handlers end with: validate, then commit. *)
Definition validateAndCommit (newConf : loc) : M Response :=
  ok ← Conf_Check newConf;
  if negb ok then AbortWithStatus StatusBadRequest
  else
    setConf newConf;;
    go_apiConfigSet newConf;;
    mret (Status StatusOK).


(** Serving one request: the response, and the world after it. *)
Definition serve (handler : M Response) (w : World) : Response * World :=
  match run handler w with
  | (Next r, w') => (r, w')
  | (Return r, w') => (r, w')
  end.

(** *** The handlers read on configurations as values

    What a handler does with the configuration [v] that [a.conf] denotes,
    up to the call of [Check]: it builds a modified configuration, or
    answers 400 before it has one, or panics in [fillStruct]. *)
Inductive Built : Type :=
| Candidate (v' : ConfView)
| Refused
| Panics.

Definition zeroPathConf : Struct := (fun f => (f, zeroValue (Typ f))) <$> pathConfFields.

Definition filled (dest source : Struct) (k : Struct -> Built) : Built :=
  let '(fs, ok) := fillStruct_loop dest source in
  if ok then k fs else Panics.

Definition build (e : Endpoint) (v : ConfView) : Built :=
  match e with
  | ConfigSet body =>
      match loadConfData body with
      | None => Refused
      | Some in_ =>
          filled (vfields v) in_ (fun fs => Candidate {| vfields := fs; vpaths := vpaths v |})
      end
  | ConfigPathsAdd param body =>
      if badName param then Refused
      else
        match loadConfPathData body with
        | None => Refused
        | Some in_ =>
            match vpaths v !! stripSlash param with
            | Some _ => Refused
            | None =>
                filled zeroPathConf in_ (fun pc =>
                  Candidate {| vfields := vfields v;
                               vpaths := <[stripSlash param := pc]> (vpaths v) |})
            end
        end
  | ConfigPathsEdit param body =>
      if badName param then Refused
      else
        match loadConfPathData body with
        | None => Refused
        | Some in_ =>
            match vpaths v !! stripSlash param with
            | None => Refused
            | Some old =>
                filled old in_ (fun pc =>
                  Candidate {| vfields := vfields v;
                               vpaths := <[stripSlash param := pc]> (vpaths v) |})
            end
        end
  | ConfigPathsRemove param =>
      if badName param then Refused
      else
        match vpaths v !! stripSlash param with
        | None => Refused
        | Some _ =>
            Candidate {| vfields := vfields v; vpaths := delete (stripSlash param) (vpaths v) |}
        end
  end.

End Handlers.

(** Every object of [h] is still there, unchanged, in [h']. *)
Definition extends (h h' : Heap) : Prop :=
  forall l o, h !! l = Some o -> h' !! l = Some o.

(** Neither [a.conf] nor what was handed to [apiConfigSet] has changed. *)
Definition unchanged (w w' : World) : Prop :=
  conf w' = conf w /\ apiConfigSet w' = apiConfigSet w.

Section Reading.
Context `{RT : GoRuntime} `{CP : ConfPackage}.

(** What a response and a world after it must be, for a handler that
    started in [w] and built [b]. *)
Definition post (w : World) (b : Built) (res : Response * World) : Prop :=
  extends (heap w) (heap res.2) /\
  match b with
  | Candidate v' =>
      if Check v'
      then res.1 = Status StatusOK /\
           view (heap res.2) (conf res.2) = Some v' /\
           apiConfigSet res.2 = apiConfigSet w ++ [conf res.2]
      else res.1 = Status StatusBadRequest /\ unchanged w res.2
  | Refused => res.1 = Status StatusBadRequest /\ unchanged w res.2
  | Panics => res.1 = Panicked /\ unchanged w res.2
  end.

Definition refines (e : Endpoint) (w : World) (v : ConfView) : Prop :=
  post w (build e v) (serve (handlerOf e) w).




End Reading.




(** A configuration at [p] all of whose objects were allocated at or after
    [base], with no [PathConf] shared between two names. *)
Definition cloned (base : nat) (h : Heap) (p mp : loc) (m : gmap string loc)
    (v : ConfView) : Prop :=
  h !! p = Some (ObjConf {| fields := vfields v; Paths := mp |}) /\
  h !! mp = Some (ObjMap m) /\
  (base <= p)%nat /\ (base <= mp)%nat /\
  (forall k, match m !! k with
             | Some l => (base <= l)%nat /\ h !! l = (ObjPathConf <$> vpaths v !! k) /\
                         is_Some (vpaths v !! k)
             | None => vpaths v !! k = None
             end) /\
  (forall k1 k2 l, m !! k1 = Some l -> m !! k2 = Some l -> k1 = k2).

(** The world [w] with another store. *)
Definition withHeap (w : World) (h : Heap) : World :=
  {| heap := h; conf := conf w; apiConfigSet := apiConfigSet w |}.

(** *** A small instance

    A runtime for the types string, int, bool and []string, a package conf
    with three settable fields and a hidden one, and a store with one
    configuration that has one path. *)

Definition lower (c : ascii) : ascii :=
  let n := nat_of_ascii c in
  if (65 <=? n)%nat && (n <=? 90)%nat then ascii_of_nat (n + 32) else c.

Fixpoint lowerString (s : string) : string :=
  match s with
  | EmptyString => EmptyString
  | String c s' => String (lower c) (lowerString s')
  end.

Definition stringsOf (l : list JSON) : option (list string) :=
  mapM (fun j => match j with JString s => Some s | _ => None end) l.

Definition exampleRuntime : GoRuntime := {|
  unmarshal := fun t j =>
    match t, j with
    | TNamed "string", JString s => Some (VString s)
    | TNamed "int", JNumber n => Some (VInt n)
    | TNamed "bool", JBool b => Some (VBool b)
    | TNamed "[]string", JArray l => VStrings <$> stringsOf l
    | _, _ => None
    end;
  marshal := fun t v =>
    match v with
    | VBool b => JBool b
    | VInt n => JNumber n
    | VString s => JString s
    | VStrings l => JArray (JString <$> l)
    | VPtr _ => JNull
    end;
  equalFold := fun a b => String.eqb (lowerString a) (lowerString b);
  zeroValue := fun t =>
    match t with
    | TNamed "string" => VString ""
    | TNamed "bool" => VBool false
    | TNamed "[]string" => VStrings []
    | TNamed _ => VInt 0
    | TPtrTo _ => VPtr None
    end;
|}.

Definition fLogLevel : StructField :=
  {| Name := "LogLevel"; Typ := TNamed "string"; Tag := "logLevel" |}.
Definition fReadBufferCount : StructField :=
  {| Name := "ReadBufferCount"; Typ := TNamed "int"; Tag := "readBufferCount" |}.
Definition fAPI : StructField :=
  {| Name := "API"; Typ := TNamed "bool"; Tag := "api" |}.
Definition fLoaded : StructField :=
  {| Name := "loaded"; Typ := TNamed "bool"; Tag := "-" |}.
Definition fRegexp : StructField :=
  {| Name := "Regexp"; Typ := TPtrTo (TNamed "regexp.Regexp"); Tag := "-" |}.
Definition fSource : StructField :=
  {| Name := "Source"; Typ := TNamed "string"; Tag := "source" |}.

(** The validation of the instance: the buffer count is positive. *)
Definition exampleConf : ConfPackage := {|
  confFields := [fLogLevel; fReadBufferCount; fAPI; fLoaded];
  pathConfFields := [fRegexp; fSource];
  Check := fun v =>
    match fieldValue (vfields v) "ReadBufferCount" with
    | Some (VInt n) => (0 <? n)%Z
    | _ => false
    end;
|}.

Definition exampleFields : Struct :=
  [(fLogLevel, VString "info"); (fReadBufferCount, VInt 512); (fAPI, VBool true);
   (fLoaded, VBool true)].

Definition examplePath : Struct :=
  [(fRegexp, VPtr None); (fSource, VString "publisher")].

Definition exampleView : ConfView :=
  {| vfields := exampleFields; vpaths := {["cam" := examplePath]} |}.

Definition exampleWorld : World :=
  {| heap := [ObjPathConf examplePath;
              ObjMap {["cam" := 0%nat]};
              ObjConf {| fields := exampleFields; Paths := 1%nat |}];
     conf := 2%nat;
     apiConfigSet := [] |}.






End api.

(** ** Declarations of package core that the session and the connection share *)

Module core.

(** The formats of gortsplib the two files tell apart ([formats.H264], ...),
    a format with what the code reads of it, and a media with its formats. *)
Inductive FormatType : Type :=
| H264 | H265 | VP8 | VP9 | AV1
| MPEG2Audio | MPEG4Audio | Opus | G722 | G711
| Generic.

#[global] Instance FormatType_eq_dec : EqDecision FormatType.
Proof. solve_decision. Defined.

Record Format : Type := mkFormat {
  formatType : FormatType;
  ClockRate : Z;
  MULaw : bool;
}.

Record Media : Type := mkMedia { Formats : list Format }.

(** [media.Media.FindFormat] and [media.Medias.FindFormat]: the first media
    that has a format of the type asked for, with its first such format. *)
Definition Media_FindFormat (m : Media) (t : FormatType) : option Format :=
  List.find (fun f => bool_decide (formatType f = t)) (Formats m).

Fixpoint FindFormat (ms : list Media) (t : FormatType) : option (Media * Format) :=
  match ms with
  | [] => None
  | m :: rest =>
      match Media_FindFormat m t with
      | Some f => Some (m, f)
      | None => FindFormat rest t
      end
  end.

(** The errors the callers of the path manager tell apart by type. *)
Inductive error : Type :=
| pathErrAuth (wrapped : string)
| pathErrNoOnePublishing (pathName : string)
| errorString (msg : string).

Record path : Type := mkPath { name : string }.
Record stream : Type := mkStream { medias : list Media; rtspStream : string }.

(** Who asks: the [author] of a request is an RTSP session or a WebRTC
    connection, named by its uuid. *)
Inductive Author : Type :=
| rtspSessionAuthor (uuid : string)
| webRTCConnAuthor (uuid : string).

Record URL : Type := mkURL {
  Scheme : string;
  Host : string;
  Path : string;
  RawQuery : string;
}.

Record Request : Type := mkRequest { Method : string; RequestURL : URL }.

Inductive authProtocol : Type :=
| authProtocolUnset
| authProtocolRTSP
| authProtocolRTMP
| authProtocolHLS
| authProtocolWebRTC.

(** Modelled from the spec: the struct [authCredentials], declared outside
    these files. Its fields are the credential set of the Auth module
    (user, pass, query, ip, proto, rtspRequest, rtspBaseURL, rtspNonce) and
    the [id] the RTSP session fills in. *)
Record authCredentials : Type := mkCredentials {
  query : string;
  ip : option string;
  user : string;
  pass : string;
  proto : authProtocol;
  id : option string;
  rtspRequest : option Request;
  rtspBaseURL : option URL;
  rtspNonce : string;
}.

(** [authCredentials{}]: what a request holds when the literal names no
    credentials. *)
Definition noCredentials : authCredentials :=
  {| query := ""; ip := None; user := ""; pass := ""; proto := authProtocolUnset;
     id := None; rtspRequest := None; rtspBaseURL := None; rtspNonce := "" |}.

Record pathReaderAddReq : Type := mkReaderAddReq {
  author : Author;
  pathName : string;
  skipAuth : bool;
  credentials : authCredentials;
}.

Record pathReaderSetupPlayRes : Type := mkReaderSetupPlayRes {
  res_path : option path;
  res_stream : option stream;
  res_err : option error;
}.

Record pathPublisherAddReq : Type := mkPublisherAddReq {
  pub_author : Author;
  pub_pathName : string;
  pub_skipAuth : bool;
  pub_credentials : authCredentials;
}.

Record pathPublisherAnnounceRes : Type := mkPublisherAnnounceRes {
  ann_path : option path;
  ann_err : option error;
}.

Record pathPublisherStartReq : Type := mkPublisherStartReq {
  start_author : Author;
  start_medias : list Media;
  generateRTPPackets : bool;
}.

Record pathPublisherStartRes : Type := mkPublisherStartRes {
  start_stream : option stream;
  start_err : option error;
}.

(** [len(p) == 0 || p[0] != '/'], and [p[1:]]. *)
Definition noLeadingSlash (p : string) : bool :=
  match p with
  | String c _ => negb (Ascii.eqb c "/"%char)
  | EmptyString => true
  end.

Definition dropFirst (p : string) : string :=
  match p with
  | String _ rest => rest
  | EmptyString => EmptyString
  end.

End core.

(** ** The path manager, as the specification describes it *)

Module path_manager.
Import core.

(** Modelled from the spec: the result of the Auth module, which is not
    among the sources: "one of: ok, credentials-missing (emit challenge),
    credentials-wrong (after a uniform delay to prevent user enumeration),
    ip-rejected". *)
Inductive AuthResult : Type :=
| AuthOk
| CredentialsMissing
| CredentialsWrong
| IpRejected.

#[global] Instance AuthResult_eq_dec : EqDecision AuthResult.
Proof. solve_decision. Defined.

Definition wrappedError (r : AuthResult) : string :=
  match r with
  | AuthOk => ""
  | CredentialsMissing => "credentials-missing"
  | CredentialsWrong => "credentials-wrong"
  | IpRejected => "ip-rejected"
  end.

(** Modelled from the spec: what the path manager works with, neither of
    which is among the sources. The Auth module "evaluates credential set
    {user, pass, query, ip, proto, rtspRequest, rtspBaseURL, rtspNonce}
    against a per-path ACL", here the read ACL of the path of a name; and
    the path with its event loop, to which the request is forwarded: "if
    ready, return stream immediately; if waitingPublisher and path has an
    on-demand source, start it and enqueue the reader; else enqueue under
    timeout; else fail no-one-publishing". *)
Class PathLayer : Type := {
  authenticate : string -> authCredentials -> AuthResult;
  path_readerAdd : pathReaderAddReq -> pathReaderSetupPlayRes;
}.

(** Modelled from the spec: the method [readerAdd] of the path manager
    (path_manager.go is not among the sources): "PathManager authenticates,
    locates or creates the Path, forwards the request to the Path's event
    loop, and returns a reference to the Path and (for readers) its active
    Stream", and "readerAdd(req): auth; if ready, return stream
    immediately; ...". An authentication that does not end in ok is
    answered with the error [pathErrAuth], the type by which the callers
    tell it apart. *)
Definition readerAdd `{PL : PathLayer} (req : pathReaderAddReq) : pathReaderSetupPlayRes :=
  match authenticate (pathName req) (credentials req) with
  | AuthOk => path_readerAdd req
  | r => {| res_path := None; res_stream := None; res_err := Some (pathErrAuth (wrappedError r)) |}
  end.

(** A small instance: the path "secret" asks for a user, every other path
    is open; someone publishes to "cam" and to no other path. *)
Definition examplePathLayer : PathLayer := {|
  authenticate := fun n cr =>
    if String.eqb n "secret"
    then (if String.eqb (user cr) "" then CredentialsMissing else AuthOk)
    else AuthOk;
  path_readerAdd := fun req =>
    if String.eqb (pathName req) "cam"
    then {| res_path := Some {| name := "cam" |};
            res_stream := Some {| medias := []; rtspStream := "cam-stream" |};
            res_err := None |}
    else {| res_path := None; res_stream := None;
            res_err := Some (pathErrNoOnePublishing (pathName req)) |};
|}.

End path_manager.

(** ** internal/core/rtsp_session.go *)

Module rtsp_session.
Import core.

(** [gortsplib.ServerSessionState]. *)
Inductive ServerSessionState : Type :=
| ServerSessionStateInitial
| ServerSessionStatePrePlay
| ServerSessionStatePlay
| ServerSessionStatePreRecord
| ServerSessionStateRecord.

#[global] Instance ServerSessionState_eq_dec : EqDecision ServerSessionState.
Proof. solve_decision. Defined.

(** [gortsplib.Transport], also the keys of [conf.Protocol]. *)
Inductive Transport : Type := TransportUDP | TransportUDPMulticast | TransportTCP.

#[global] Instance Transport_eq_dec : EqDecision Transport.
Proof. solve_decision. Defined.

(** [base.StatusCode] and [base.Response]. *)
Definition StatusOK : Z := 200.
Definition StatusBadRequest : Z := 400.
Definition StatusNotFound : Z := 404.
Definition StatusUnsupportedTransport : Z := 461.

Record Response : Type := mkResponse {
  StatusCode : Z;
  Header : list (string * string);
}.

Definition respond (code : Z) : Response := {| StatusCode := code; Header := [] |}.

Record ServerHandlerOnAnnounceCtx : Type := mkAnnounceCtx {
  ann_Path : string;
  ann_Query : string;
  ann_Request : Request;
}.

Record ServerHandlerOnSetupCtx : Type := mkSetupCtx {
  ctx_Path : string;
  ctx_Query : string;
  ctx_Transport : Transport;
  ctx_Request : Request;
}.

(** [externalcmd.Cmd], by the command line and the restart flag it was
    started with. *)
Record Cmd : Type := mkCmd { cmdstr : string; restart : bool }.

(** What [onPlay] reads of the [conf.PathConf] of the path. *)
Record PathConf : Type := mkPathConf { RunOnRead : string; RunOnReadRestart : bool }.

(** The [rtspConn] a request came in on, as far as the session uses it. *)
Record rtspConn : Type := mkConn {
  authNonce : string;
  conn_ip : string;
  conn_uuid : string;
}.

(** The [rtspSession]. [session_State] and [session_AnnouncedMedias] are
    [s.session.State()] and [s.session.AnnouncedMedias()], which gortsplib
    keeps; [state] is the state the session records under [stateMutex]. *)
Record rtspSession : Type := mkSession {
  isTLS : bool;
  protocols : list Transport;
  session_State : ServerSessionState;
  session_AnnouncedMedias : list Media;
  uuid : string;
  s_path : option path;
  s_stream : option stream;
  state : ServerSessionState;
  onReadCmd : option Cmd;
}.

(** The formatprocessor unit [getRTSPWriteFunc] wraps a packet of a format
    in, named by the format of the unit. *)
Definition getRTSPWriteFunc (forma : Format) : FormatType :=
  match formatType forma with
  | H264 => H264
  | H265 => H265
  | VP8 => VP8
  | VP9 => VP9
  | MPEG2Audio => MPEG2Audio
  | MPEG4Audio => MPEG4Audio
  | Opus => Opus
  | _ => Generic
  end.

(** The interface [rtspSessionPathManager]. *)
Class rtspSessionPathManager : Type := {
  publisherAdd : pathPublisherAddReq -> pathPublisherAnnounceRes;
  readerAdd : pathReaderAddReq -> pathReaderSetupPlayRes;
}.

(** What else the session calls and this file does not define:
    [auth.GenerateNonce], [(c *rtspConn) handleAuthError], and the methods
    [publisherStart] and [safeConf] of a path. *)
Class Collaborators : Type := {
  GenerateNonce : string;
  handleAuthError : rtspConn -> string -> Response * option error;
  publisherStart : path -> pathPublisherStartReq -> pathPublisherStartRes;
  safeConf : path -> PathConf;
}.

(** The calls a handler makes on the path manager, on its path, on the
    gortsplib session and on external commands, in order. *)
Inductive Call : Type :=
| CallPublisherAdd (req : pathPublisherAddReq)
| CallReaderAdd (req : pathReaderAddReq)
| CallPublisherStart (p : path) (req : pathPublisherStartReq)
| CallPublisherStop (p : path) (a : Author)
| CallPublisherRemove (p : path) (a : Author)
| CallReaderRemove (p : path) (a : Author)
| CallOnPacketRTP (medi : Media) (forma : Format) (unit : FormatType)
| CallNewCmd (cmd : Cmd)
| CallCmdClose (cmd : Cmd).

Record World : Type := mkWorld {
  s : rtspSession;
  c : rtspConn;
  calls : list Call;
}.

Definition setSession (w : World) (s' : rtspSession) : World :=
  {| s := s'; c := c w; calls := calls w |}.

Definition setNonce (w : World) (n : string) : World :=
  {| s := s w;
     c := {| authNonce := n; conn_ip := conn_ip (c w); conn_uuid := conn_uuid (c w) |};
     calls := calls w |}.

Definition call (w : World) (x : Call) : World :=
  {| s := s w; c := c w; calls := calls w ++ [x] |}.

Definition setPathStreamState (s0 : rtspSession) (p : option path) (st : option stream)
    (new : ServerSessionState) : rtspSession :=
  {| isTLS := isTLS s0; protocols := protocols s0;
     session_State := session_State s0;
     session_AnnouncedMedias := session_AnnouncedMedias s0;
     uuid := uuid s0; s_path := p; s_stream := st; state := new;
     onReadCmd := onReadCmd s0 |}.

Definition setOnReadCmd (s0 : rtspSession) (cmd : option Cmd) : rtspSession :=
  {| isTLS := isTLS s0; protocols := protocols s0;
     session_State := session_State s0;
     session_AnnouncedMedias := session_AnnouncedMedias s0;
     uuid := uuid s0; s_path := s_path s0; s_stream := s_stream s0; state := state s0;
     onReadCmd := cmd |}.

Section Handlers.
Context `{PM : rtspSessionPathManager} `{CO : Collaborators}.

(** [if c.authNonce == "" { c.authNonce = auth.GenerateNonce() }]. *)
Definition ensureNonce (w : World) : World :=
  if String.eqb (authNonce (c w)) "" then setNonce w GenerateNonce else w.

(** [onAnnounce]: the response, the error, and the world after it. *)
Definition onAnnounce (ctx : ServerHandlerOnAnnounceCtx) (w : World)
    : (Response * option error) * World :=
  if noLeadingSlash (ann_Path ctx)
  then (respond StatusBadRequest, Some (errorString "invalid path"), w)
  else
    let Path := dropFirst (ann_Path ctx) in
    let w := ensureNonce w in
    let req :=
      {| pub_author := rtspSessionAuthor (uuid (s w));
         pub_pathName := Path;
         pub_skipAuth := false;
         pub_credentials :=
           {| query := ann_Query ctx;
              ip := Some (conn_ip (c w));
              user := ""; pass := "";
              proto := authProtocolRTSP;
              id := Some (conn_uuid (c w));
              rtspRequest := Some (ann_Request ctx);
              rtspBaseURL := None;
              rtspNonce := authNonce (c w) |} |} in
    let res := publisherAdd req in
    let w := call w (CallPublisherAdd req) in
    match ann_err res with
    | Some (pathErrAuth wrapped) => (handleAuthError (c w) wrapped, w)
    | Some e => (respond StatusBadRequest, Some e, w)
    | None =>
        let w := setSession w (setPathStreamState (s w) (ann_path res) (s_stream (s w))
                                 ServerSessionStatePreRecord) in
        (respond StatusOK, None, w)
    end.

(** [onSetup]: the response, the stream and the error, and the world after
    it. [None]: the handler dereferenced a nil [res.stream], which it does
    when it builds its answer, after it has recorded the path, the stream
    and the state. *)
Definition onSetup (ctx : ServerHandlerOnSetupCtx) (w : World)
    : option (Response * option string * option error) * World :=
  if noLeadingSlash (ctx_Path ctx)
  then (Some (respond StatusBadRequest, None, Some (errorString "invalid path")), w)
  else
    let Path := dropFirst (ctx_Path ctx) in
    if bool_decide (ctx_Transport ctx = TransportTCP)
       && negb (bool_decide (TransportTCP ∈ protocols (s w)))
    then (Some (respond StatusUnsupportedTransport, None, None), w)
    else
      match session_State (s w) with
      | ServerSessionStateInitial | ServerSessionStatePrePlay =>
          (* play *)
          let baseURL :=
            if negb (String.eqb (ctx_Query ctx) "")
            then {| Scheme := Scheme (RequestURL (ctx_Request ctx));
                    Host := Host (RequestURL (ctx_Request ctx));
                    Path := Path;
                    RawQuery := String.append (ctx_Query ctx) "/" |}
            else {| Scheme := Scheme (RequestURL (ctx_Request ctx));
                    Host := Host (RequestURL (ctx_Request ctx));
                    Path := String.append Path "/";
                    RawQuery := ctx_Query ctx |} in
          let w := ensureNonce w in
          let req :=
            {| author := rtspSessionAuthor (uuid (s w));
               pathName := Path;
               skipAuth := false;
               credentials :=
                 {| query := ctx_Query ctx;
                    ip := Some (conn_ip (c w));
                    user := ""; pass := "";
                    proto := authProtocolRTSP;
                    id := Some (conn_uuid (c w));
                    rtspRequest := Some (ctx_Request ctx);
                    rtspBaseURL := Some baseURL;
                    rtspNonce := authNonce (c w) |} |} in
          let res := readerAdd req in
          let w := call w (CallReaderAdd req) in
          match res_err res with
          | Some (pathErrAuth wrapped) =>
              let '(r, e) := handleAuthError (c w) wrapped in
              (Some (r, None, e), w)
          | Some (pathErrNoOnePublishing n) =>
              (Some (respond StatusNotFound, None, Some (pathErrNoOnePublishing n)), w)
          | Some e => (Some (respond StatusBadRequest, None, Some e), w)
          | None =>
              let w := setSession w (setPathStreamState (s w) (res_path res) (res_stream res)
                                       ServerSessionStatePrePlay) in
              match res_stream res with
              | Some st => (Some (respond StatusOK, Some (rtspStream st), None), w)
              | None => (None, w)
              end
          end
      | _ =>
          (* record *)
          (Some (respond StatusOK, None, None), w)
      end.

(** [onPlay]. [None]: the handler dereferenced a nil [s.path]. *)
Definition onPlay (w : World) : option (Response * option error) * World :=
  if bool_decide (session_State (s w) = ServerSessionStatePrePlay)
  then
    match s_path (s w) with
    | None => (None, w)
    | Some p =>
        let pathConf := safeConf p in
        let w :=
          if negb (String.eqb (RunOnRead pathConf) "")
          then
            let cmd := {| cmdstr := RunOnRead pathConf; restart := RunOnReadRestart pathConf |} in
            setSession (call w (CallNewCmd cmd)) (setOnReadCmd (s w) (Some cmd))
          else w in
        let w := setSession w (setPathStreamState (s w) (s_path (s w)) (s_stream (s w))
                                 ServerSessionStatePlay) in
        (Some (respond StatusOK, None), w)
    end
  else (Some (respond StatusOK, None), w).

(** The callbacks [onRecord] registers with [ctx.Session.OnPacketRTP]. *)
Definition registerWriteFuncs (ms : list Media) : list Call :=
  medi ← ms; forma ← Formats medi; [CallOnPacketRTP medi forma (getRTSPWriteFunc forma)].

(** [onRecord]. *)
Definition onRecord (w : World) : option (Response * option error) * World :=
  match s_path (s w) with
  | None => (None, w)
  | Some p =>
      let req := {| start_author := rtspSessionAuthor (uuid (s w));
                    start_medias := session_AnnouncedMedias (s w);
                    generateRTPPackets := false |} in
      let res := publisherStart p req in
      let w := call w (CallPublisherStart p req) in
      match start_err res with
      | Some e => (Some (respond StatusBadRequest, Some e), w)
      | None =>
          let w := setSession w (setPathStreamState (s w) (s_path (s w)) (start_stream res)
                                   (state (s w))) in
          let w := {| s := s w; c := c w;
                      calls := calls w ++ registerWriteFuncs (session_AnnouncedMedias (s w)) |} in
          let w := setSession w (setPathStreamState (s w) (s_path (s w)) (s_stream (s w))
                                   ServerSessionStateRecord) in
          (Some (respond StatusOK, None), w)
      end
  end.

(** [onPause]. *)
Definition onPause (w : World) : option (Response * option error) * World :=
  match session_State (s w) with
  | ServerSessionStatePlay =>
      let w := match onReadCmd (s w) with
               | Some cmd => call w (CallCmdClose cmd)
               | None => w
               end in
      let w := setSession w (setPathStreamState (s w) (s_path (s w)) (s_stream (s w))
                               ServerSessionStatePrePlay) in
      (Some (respond StatusOK, None), w)
  | ServerSessionStateRecord =>
      match s_path (s w) with
      | None => (None, w)
      | Some p =>
          let w := call w (CallPublisherStop p (rtspSessionAuthor (uuid (s w)))) in
          let w := setSession w (setPathStreamState (s w) (s_path (s w)) (s_stream (s w))
                                   ServerSessionStatePreRecord) in
          (Some (respond StatusOK, None), w)
      end
  | _ => (Some (respond StatusOK, None), w)
  end.

(** [onClose], called by rtspServer. *)
Definition onClose (w : World) : option unit * World :=
  let w :=
    if bool_decide (session_State (s w) = ServerSessionStatePlay)
    then match onReadCmd (s w) with
         | Some cmd => setSession (call w (CallCmdClose cmd)) (setOnReadCmd (s w) None)
         | None => w
         end
    else w in
  let unlink (w : World) : option unit * World :=
    (Some tt, setSession w (setPathStreamState (s w) None None (state (s w)))) in
  match session_State (s w) with
  | ServerSessionStatePrePlay | ServerSessionStatePlay =>
      match s_path (s w) with
      | None => (None, w)
      | Some p => unlink (call w (CallReaderRemove p (rtspSessionAuthor (uuid (s w)))))
      end
  | ServerSessionStatePreRecord | ServerSessionStateRecord =>
      match s_path (s w) with
      | None => (None, w)
      | Some p => unlink (call w (CallPublisherRemove p (rtspSessionAuthor (uuid (s w)))))
      end
  | ServerSessionStateInitial => unlink w
  end.

End Handlers.

(** What the statements speak of: a SETUP that gets as far as the path
    manager (the path has its slash, TCP is not asked for while disabled,
    and gortsplib has the session in the play direction), and a session
    whose recorded state is the state gortsplib has it in. *)
Definition playSetup (ctx : ServerHandlerOnSetupCtx) (w : World) : Prop :=
  noLeadingSlash (ctx_Path ctx) = false /\
  (ctx_Transport ctx = TransportTCP -> TransportTCP ∈ protocols (s w)) /\
  (session_State (s w) = ServerSessionStateInitial \/
   session_State (s w) = ServerSessionStatePrePlay).

Definition inSync (w : World) : Prop := state (s w) = session_State (s w).

(** *** A small instance

    The path manager of the specification over its small instance: it
    knows the paths "cam" (someone publishes) and "secret" (credentials are
    asked for); and a session on a connection that has no nonce yet. *)
Definition examplePathManager : rtspSessionPathManager := {|
  publisherAdd := fun req =>
    {| ann_path := Some {| name := pub_pathName req |}; ann_err := None |};
  readerAdd := path_manager.readerAdd (PL := path_manager.examplePathLayer);
|}.

Definition exampleCollaborators : Collaborators := {|
  GenerateNonce := "b7c19f";
  handleAuthError := fun c wrapped =>
    ({| StatusCode := 401; Header := [("WWW-Authenticate", authNonce c)] |},
     Some (errorString wrapped));
  publisherStart := fun p req =>
    {| start_stream := Some {| medias := start_medias req; rtspStream := name p |};
       start_err := None |};
  safeConf := fun p => {| RunOnRead := ""; RunOnReadRestart := false |};
|}.

Definition exampleSession (st : ServerSessionState) (p : option path) : rtspSession :=
  {| isTLS := false; protocols := [TransportUDP; TransportTCP];
     session_State := st; session_AnnouncedMedias := [];
     uuid := "5e2d"; s_path := p; s_stream := None; state := st; onReadCmd := None |}.

Definition exampleWorld (st : ServerSessionState) (p : option path) : World :=
  {| s := exampleSession st p;
     c := {| authNonce := ""; conn_ip := "192.0.2.7"; conn_uuid := "a41c" |};
     calls := [] |}.

Definition exampleSetup (p : string) : ServerHandlerOnSetupCtx :=
  {| ctx_Path := p; ctx_Query := ""; ctx_Transport := TransportTCP;
     ctx_Request :=
       {| Method := "SETUP";
          RequestURL := {| Scheme := "rtsp"; Host := "host:8554"; Path := p; RawQuery := "" |} |} |}.

Definition exampleAnnounce (p : string) : ServerHandlerOnAnnounceCtx :=
  {| ann_Path := p; ann_Query := "";
     ann_Request :=
       {| Method := "ANNOUNCE";
          RequestURL := {| Scheme := "rtsp"; Host := "host:8554"; Path := p; RawQuery := "" |} |} |}.

Definition exampleSetupRequest (p : string) : pathReaderAddReq :=
  {| author := rtspSessionAuthor "5e2d";
     pathName := dropFirst p;
     skipAuth := false;
     credentials :=
       {| query := ""; ip := Some "192.0.2.7"; user := ""; pass := "";
          proto := authProtocolRTSP; id := Some "a41c";
          rtspRequest := Some (ctx_Request (exampleSetup p));
          rtspBaseURL := Some {| Scheme := "rtsp"; Host := "host:8554";
                                 Path := String.append (dropFirst p) "/"; RawQuery := "" |};
          rtspNonce := "b7c19f" |} |}.

End rtsp_session.

(** ** internal/core/webrtc_conn.go *)

Module webrtc_conn.
Import core.

(** [time.Duration] counts nanoseconds. *)
Definition Second : Z := 1000000000.

Definition webrtcHandshakeDeadline : Z := 10 * Second.
Definition webrtcWsWriteDeadline : Z := 2 * Second.
Definition webrtcPayloadMaxSize : Z := 1188.

(** The MIME types of pion/webrtc. *)
Definition MimeTypeAV1 : string := "video/AV1".
Definition MimeTypeVP9 : string := "video/VP9".
Definition MimeTypeVP8 : string := "video/VP8".
Definition MimeTypeH264 : string := "video/H264".
Definition MimeTypeOpus : string := "audio/opus".
Definition MimeTypeG722 : string := "audio/G722".
Definition MimeTypePCMU : string := "audio/PCMU".
Definition MimeTypePCMA : string := "audio/PCMA".

Record RTPCodecCapability : Type := mkCapability {
  MimeType : string;
  cap_ClockRate : Z;
}.

Record TrackLocalStaticRTP : Type := mkTrackLocal {
  codec : RTPCodecCapability;
  track_id : string;
  streamID : string;
}.

(** [webRTCTrack], without the callback [cb] that encodes the units. *)
Record webRTCTrack : Type := mkTrack {
  media : Media;
  format : Format;
  track : TrackLocalStaticRTP;
}.

Definition gatherMedias (tracks : list webRTCTrack) : list Media := media <$> tracks.

(** [uint32(x)]. *)
Definition uint32 (x : Z) : Z := x mod 2 ^ 32.

Record webRTCConn : Type := mkConn {
  readBufferCount : Z;
  pathName : string;
  iceServers : list string;
  uuid : string;
  remoteAddr : string;
}.

Record SessionDescription : Type := mkSDP { sdp_Type : string; SDP : string }.

Definition SDPTypeOffer : string := "offer".

(** The interface [webRTCConnPathManager]. *)
Class webRTCConnPathManager : Type := {
  readerAdd : pathReaderAddReq -> pathReaderSetupPlayRes;
}.

(** What the connection calls of pion/webrtc and of the websocket, by the
    error (or the value) each call returns. *)
Class Peer : Type := {
  NewTrackLocalStaticRTP : RTPCodecCapability -> string -> string -> option error;
  WriteJSON_ICEServers : option error;
  ReadJSON_offer : error + SessionDescription;
  newPeerConnection : option error;
  AddTrack : TrackLocalStaticRTP -> option error;
  SetRemoteDescription : SessionDescription -> option error;
  CreateAnswer : error + SessionDescription;
  SetLocalDescription : SessionDescription -> option error;
  WriteJSON_answer : SessionDescription -> option error;
}.

(** What the select of the candidate-exchange loop receives: a local or a
    remote candidate (with the error of the call that handles it), an error
    of the websocket reader, the expiry of the timer [t], the closing of
    [pcConnected], or the end of the context. *)
Inductive LoopEvent : Type :=
| LocalCandidate (candidate : string) (writeErr : option error)
| RemoteCandidate (candidate : string) (addErr : option error)
| WsReadError (err : error)
| TimerExpired
| PcConnected
| CtxDone.

(** What the select of an established connection receives. *)
Inductive FinalEvent : Type :=
| PcDisconnected
| WsReadErrorAfter (msg : string)
| WriteError (err : error)
| CtxDoneAfter.

(** What [run] and [runInner] do to the world around them, in order. *)
Inductive Action : Type :=
| DoReaderAdd (req : pathReaderAddReq)
| DoReaderRemove (p : path) (a : Author)
| DoWriteICEServers
| DoReadOffer
| DoNewPeerConnection
| DoPcClose
| DoAddTrack (t : TrackLocalStaticRTP)
| DoSetRemoteDescription
| DoCreateAnswer
| DoSetLocalDescription
| DoWriteAnswer
| DoNewTimer (d : Z)
| DoTimerStop
| DoWriteCandidate (candidate : string)
| DoAddICECandidate (candidate : string)
| DoSetCurPC
| DoStreamReaderAdd (medi : Media) (forma : Format)
| DoStreamReaderRemove
| DoRingBufferClose
| DoInnerCtxCancel
| DoCtxCancel
| DoConnClose
| DoLogClosed (err : error)
| DoWgDone
| DoCloseClosed.

(** How a run of [runInner] over the events given stands: it returned an
    error, it is still blocked in a select, or it dereferenced nil. *)
Inductive Exit : Type :=
| Returned (err : error)
| Blocked
| NilDereference.

Definition Run : Type := Exit * list Action.

(** One more action, then the rest. *)
Definition act (a : Action) (r : Run) : Run := (r.1, a :: r.2).

(** [defer]: the deferred actions run when the function leaves, by a
    return or by a panic. *)
Definition defer (d : list Action) (r : Run) : Run :=
  match r.1 with
  | Blocked => r
  | _ => (r.1, r.2 ++ d)
  end.

(** [defer func() { path.readerRemove(pathReaderRemoveReq{author: c}) }()]:
    with a nil [path] the deferred call dereferences nil when the function
    leaves. *)
Definition deferReaderRemove (p : option path) (a : Author) (r : Run) : Run :=
  match p with
  | Some p => defer [DoReaderRemove p a] r
  | None =>
      match r.1 with
      | Blocked => r
      | _ => (NilDereference, r.2)
      end
  end.

(** A call that may fail: on an error the function returns it. *)
Definition try (a : Action) (e : option error) (k : Run) : Run :=
  match e with
  | Some err => (Returned err, [a])
  | None => act a k
  end.

Section Conn.
Context `{PM : webRTCConnPathManager} `{PE : Peer}.

Definition newTrack (cap : RTPCodecCapability) (id : string) (m : Media) (f : Format)
    : option webRTCTrack * option error :=
  match NewTrackLocalStaticRTP cap id "rtspss" with
  | Some err => (None, Some err)
  | None => (Some {| media := m; format := f;
                     track := {| codec := cap; track_id := id; streamID := "rtspss" |} |},
             None)
  end.

Definition createVideoTrack (medias : list Media) : option webRTCTrack * option error :=
  match FindFormat medias AV1 with
  | Some (av1Media, av1Format) =>
      newTrack {| MimeType := MimeTypeAV1; cap_ClockRate := 90000 |} "av1" av1Media av1Format
  | None =>
  match FindFormat medias VP9 with
  | Some (vp9Media, vp9Format) =>
      newTrack {| MimeType := MimeTypeVP9; cap_ClockRate := uint32 (ClockRate vp9Format) |}
               "vp9" vp9Media vp9Format
  | None =>
  match FindFormat medias VP8 with
  | Some (vp8Media, vp8Format) =>
      newTrack {| MimeType := MimeTypeVP8; cap_ClockRate := uint32 (ClockRate vp8Format) |}
               "vp8" vp8Media vp8Format
  | None =>
  match FindFormat medias H264 with
  | Some (h264Media, h264Format) =>
      newTrack {| MimeType := MimeTypeH264; cap_ClockRate := uint32 (ClockRate h264Format) |}
               "h264" h264Media h264Format
  | None => (None, None)
  end end end end.

Definition createAudioTrack (medias : list Media) : option webRTCTrack * option error :=
  match FindFormat medias Opus with
  | Some (opusMedia, opusFormat) =>
      newTrack {| MimeType := MimeTypeOpus; cap_ClockRate := uint32 (ClockRate opusFormat) |}
               "opus" opusMedia opusFormat
  | None =>
  match FindFormat medias G722 with
  | Some (g722Media, g722Format) =>
      newTrack {| MimeType := MimeTypeG722; cap_ClockRate := uint32 (ClockRate g722Format) |}
               "g722" g722Media g722Format
  | None =>
  match FindFormat medias G711 with
  | Some (g711Media, g711Format) =>
      let mtyp := if MULaw g711Format then MimeTypePCMU else MimeTypePCMA in
      newTrack {| MimeType := mtyp; cap_ClockRate := uint32 (ClockRate g711Format) |}
               "g711" g711Media g711Format
  | None => (None, None)
  end end end.

(** [readOffer]. *)
Definition readOffer : error + SessionDescription :=
  match ReadJSON_offer with
  | inl err => inl err
  | inr offer =>
      if negb (String.eqb (sdp_Type offer) SDPTypeOffer)
      then inl (errorString "received SDP is not an offer")
      else inr offer
  end.

(** [for _, track := range tracks { pc.AddTrack(track.webRTCTrack) ... }]. *)
Fixpoint addTracks (tracks : list webRTCTrack) (k : Run) : Run :=
  match tracks with
  | [] => k
  | t :: rest => try (DoAddTrack (track t)) (AddTrack (track t)) (addTracks rest k)
  end.

(** The select of an established connection. *)
Definition established (final : option FinalEvent) : Run :=
  match final with
  | None => (Blocked, [])
  | Some PcDisconnected => (Returned (errorString "peer connection closed"), [])
  | Some (WsReadErrorAfter msg) =>
      (Returned (errorString (String.append "websocket error: " msg)), [])
  | Some (WriteError err) => (Returned err, [])
  | Some CtxDoneAfter => (Returned (errorString "terminated"), [])
  end.

(** The loop [outer]: one select per event, until one of them leaves the
    loop; [k] is what follows [break outer]. *)
Fixpoint candidateLoop (events : list LoopEvent) (k : Run) : Run :=
  match events with
  | [] => (Blocked, [])
  | LocalCandidate candidate writeErr :: rest =>
      try (DoWriteCandidate candidate) writeErr (candidateLoop rest k)
  | RemoteCandidate candidate addErr :: rest =>
      try (DoAddICECandidate candidate) addErr (candidateLoop rest k)
  | WsReadError err :: _ => (Returned err, [])
  | TimerExpired :: _ => (Returned (errorString "deadline exceeded"), [])
  | PcConnected :: _ => k
  | CtxDone :: _ => (Returned (errorString "terminated"), [])
  end.

Definition unsupportedCodecs : error :=
  errorString
    "the stream doesn't contain any supported codec, which are currently H264, VP8, VP9, G711, G722, Opus".

(** [runInner], from the timer on. [p] is the local [path], whose name the
    connection logs once it reads from the stream. *)
Definition handshake (c : webRTCConn) (p : option path) (tracks : list webRTCTrack)
    (events : list LoopEvent) (final : option FinalEvent) : Run :=
  act (DoNewTimer webrtcHandshakeDeadline)
    (defer [DoTimerStop]
       (candidateLoop events
          (act DoSetCurPC
             (defer [DoRingBufferClose]
                (fold_right (fun t k => act (DoStreamReaderAdd (media t) (format t)) k)
                   (defer [DoStreamReaderRemove]
                      match p with
                      | Some _ => established final
                      | None => (NilDereference, [])
                      end)
                   tracks))))).

(** [runInner]. *)
Definition runInner (c : webRTCConn) (events : list LoopEvent) (final : option FinalEvent)
    : Run :=
  let req := {| author := webRTCConnAuthor (uuid c);
                core.pathName := pathName c;
                skipAuth := true;
                credentials := noCredentials |} in
  let res := readerAdd req in
  act (DoReaderAdd req)
    match res_err res with
    | Some err => (Returned err, [])
    | None =>
        deferReaderRemove (res_path res) (webRTCConnAuthor (uuid c))
          match res_stream res with
          | None => (NilDereference, [])
          | Some stream =>
              match createVideoTrack (medias stream) with
              | (_, Some err) => (Returned err, [])
              | (videoTrack, None) =>
                  match createAudioTrack (medias stream) with
                  | (_, Some err) => (Returned err, [])
                  | (audioTrack, None) =>
                      let tracks := option_list videoTrack ++ option_list audioTrack in
                      match tracks with
                      | [] => (Returned unsupportedCodecs, [])
                      | _ =>
                          try DoWriteICEServers WriteJSON_ICEServers
                            (act DoReadOffer
                               match readOffer with
                               | inl err => (Returned err, [])
                               | inr offer =>
                                   try DoNewPeerConnection newPeerConnection
                                     (defer [DoPcClose]
                                        (addTracks tracks
                                           (try DoSetRemoteDescription (SetRemoteDescription offer)
                                              (act DoCreateAnswer
                                                 match CreateAnswer with
                                                 | inl err => (Returned err, [])
                                                 | inr answer =>
                                                     try DoSetLocalDescription
                                                       (SetLocalDescription answer)
                                                       (try DoWriteAnswer (WriteJSON_answer answer)
                                                          (handshake c (res_path res) tracks
                                                             events final))
                                                 end))))
                               end)
                      end
                  end
              end
          end
    end.

(** What the select of [run] receives: the error [runInner] returned, or
    the end of the context of the connection. *)
Inductive RunEvent : Type := RunErr | ConnCtxDone.

(** [run]: the error the connection is closed with, and what [run] itself
    does, in order: it cancels the two contexts, has its parent close the
    connection, logs "closed (err)", and runs its two deferred calls. With
    [runInner] blocked, [run] is blocked as well, and a panic of [runInner]
    ends the program. *)
Definition run (c : webRTCConn) (events : list LoopEvent) (final : option FinalEvent)
    (sel : RunEvent) : option error * list Action :=
  match (runInner c events final).1 with
  | Returned runErr =>
      let err := match sel with
                 | RunErr => runErr
                 | ConnCtxDone => errorString "terminated"
                 end in
      (Some err,
       [DoInnerCtxCancel; DoCtxCancel; DoConnClose; DoLogClosed err; DoWgDone; DoCloseClosed])
  | Blocked =>
      (None, match sel with RunErr => [] | ConnCtxDone => [DoInnerCtxCancel] end)
  | NilDereference => (None, [])
  end.

End Conn.

(** *** What the statements speak of *)






(** What a run registered with [stream.readerAdd], in order. *)
Definition readerAdds (acts : list Action) : list (Media * Format) :=
  omap (fun a => match a with DoStreamReaderAdd m f => Some (m, f) | _ => None end) acts.



(** The registrations of a run are none, or those of [tracks]. *)
Definition registers (tracks : list webRTCTrack) (r : Run) : Prop :=
  readerAdds r.2 = [] \/ readerAdds r.2 = (fun t => (media t, format t)) <$> tracks.

(** What the loop does for an event it handles. *)
Definition candidateAction (e : LoopEvent) : list Action :=
  match e with
  | LocalCandidate candidate _ => [DoWriteCandidate candidate]
  | RemoteCandidate candidate _ => [DoAddICECandidate candidate]
  | _ => []
  end.

Section Loop.
Context `{PM : webRTCConnPathManager} `{PE : Peer}.

(** The signaling before the loop goes through: the reader is admitted to
    the stream [st] of the path [p], [tracks] are the tracks made, there is
    one at least, and no call of the websocket or of pion fails. *)
Definition entersLoop (c : webRTCConn) (p : path) (st : stream) (tracks : list webRTCTrack)
    : Prop :=
  exists offer answer,
    readerAdd {| author := webRTCConnAuthor (uuid c); core.pathName := pathName c;
                 skipAuth := true; credentials := noCredentials |}
      = {| res_path := Some p; res_stream := Some st; res_err := None |} /\
    (createVideoTrack (medias st)).2 = None /\
    (createAudioTrack (medias st)).2 = None /\
    tracks = option_list (createVideoTrack (medias st)).1
             ++ option_list (createAudioTrack (medias st)).1 /\
    tracks <> [] /\
    WriteJSON_ICEServers = None /\
    readOffer = inr offer /\
    newPeerConnection = None /\
    Forall (fun t => AddTrack (track t) = None) tracks /\
    SetRemoteDescription offer = None /\
    CreateAnswer = inr answer /\
    SetLocalDescription answer = None /\
    WriteJSON_answer answer = None.

(** A candidate that is handled without an error. *)
Definition handled (e : LoopEvent) : Prop :=
  match e with
  | LocalCandidate _ None | RemoteCandidate _ None => True
  | _ => False
  end.

End Loop.

(** *** A small instance

    A path manager that admits the reader to a stream with an H264 and an
    Opus track, and a peer with which no call fails. *)
Definition exampleMedias : list Media :=
  [ {| Formats := [{| formatType := H264; ClockRate := 90000; MULaw := false |}] |};
    {| Formats := [{| formatType := Opus; ClockRate := 48000; MULaw := false |}] |} ].

Definition examplePathManager : webRTCConnPathManager := {|
  readerAdd := fun req =>
    {| res_path := Some {| name := core.pathName req |};
       res_stream := Some {| medias := exampleMedias; rtspStream := "cam-stream" |};
       res_err := None |};
|}.

Definition examplePeer : Peer := {|
  NewTrackLocalStaticRTP := fun _ _ _ => None;
  WriteJSON_ICEServers := None;
  ReadJSON_offer := inr {| sdp_Type := "offer"; SDP := "v=0" |};
  newPeerConnection := None;
  AddTrack := fun _ => None;
  SetRemoteDescription := fun _ => None;
  CreateAnswer := inr {| sdp_Type := "answer"; SDP := "v=0" |};
  SetLocalDescription := fun _ => None;
  WriteJSON_answer := fun _ => None;
|}.

Definition exampleConn : webRTCConn :=
  {| readBufferCount := 512; pathName := "cam"; iceServers := [];
     uuid := "7f3a"; remoteAddr := "192.0.2.7:51312" |}.

Definition exampleTracks : list webRTCTrack :=
  [ {| media := {| Formats := [{| formatType := H264; ClockRate := 90000; MULaw := false |}] |};
       format := {| formatType := H264; ClockRate := 90000; MULaw := false |};
       track := {| codec := {| MimeType := MimeTypeH264; cap_ClockRate := 90000 |};
                   track_id := "h264"; streamID := "rtspss" |} |};
    {| media := {| Formats := [{| formatType := Opus; ClockRate := 48000; MULaw := false |}] |};
       format := {| formatType := Opus; ClockRate := 48000; MULaw := false |};
       track := {| codec := {| MimeType := MimeTypeOpus; cap_ClockRate := 48000 |};
                   track_id := "opus"; streamID := "rtspss" |} |} ].




End webrtc_conn.

(* ====================================================================== *)
(** * Part II: lemmas and theorems *)
(* ====================================================================== *)

(** ** The control API *)

Module api_proofs.
Import api.


(** ** Struct fields *)













(** ** fillStruct *)











(** ** Decoding *)

Section Decoding.
Context `{RT : GoRuntime}.


























End Decoding.

(** ** The store *)

Lemma extends_refl h : extends h h.
Proof. by intros l o. Qed.

Lemma extends_trans h1 h2 h3 : extends h1 h2 -> extends h2 h3 -> extends h1 h3.
Proof. intros H12 H23 l o Hl. by apply H23, H12. Qed.

Lemma extends_app h ext : extends h (h ++ ext).
Proof. intros l o Hl. by apply lookup_app_l_Some. Qed.

Lemma extends_insert_fresh h0 h l o :
  extends h0 h -> (length h0 <= l)%nat -> extends h0 (<[l := o]> h).
Proof.
  intros Hext Hl l' o' Hl'.
  rewrite list_lookup_insert_ne.
  - by apply Hext.
  - apply lookup_lt_Some in Hl'. lia.
Qed.

Lemma extends_length h h' : extends h h' -> (length h <= length h')%nat.
Proof.
  intros Hext. destruct (decide (length h = 0%nat)) as [->|Hne]; [lia|].
  destruct (lookup_lt_is_Some_2 h (pred (length h))) as [o Ho]; [lia|].
  apply Hext, lookup_lt_Some in Ho. lia.
Qed.

Lemma derefPathConf_Some h l pc :
  derefPathConf h l = Some pc <-> h !! l = Some (ObjPathConf pc).
Proof.
  unfold derefPathConf. destruct (h !! l) as [[]|]; naive_solver.
Qed.

Lemma derefPathConf_extends h h' l pc :
  extends h h' -> derefPathConf h l = Some pc -> derefPathConf h' l = Some pc.
Proof. rewrite !derefPathConf_Some. auto. Qed.

(** [view] unfolded. *)
Lemma view_Some h p v :
  view h p = Some v <->
  exists mp m,
    h !! p = Some (ObjConf {| fields := vfields v; Paths := mp |}) /\
    h !! mp = Some (ObjMap m) /\
    forall k, match m !! k with
              | Some l => h !! l = (ObjPathConf <$> vpaths v !! k) /\ is_Some (vpaths v !! k)
              | None => vpaths v !! k = None
              end.
Proof.
  unfold view. split.
  - destruct (h !! p) as [[c| |]|] eqn:Hp; try done.
    destruct (h !! Paths c) as [[|m|]|] eqn:Hm; try done.
    case_decide as Hall; [|done]. intros [= <-]. cbn.
    exists (Paths c), m. destruct c as [fs mp]. cbn in *. split_and!; [done..|].
    intros k. rewrite lookup_omap. destruct (m !! k) as [l|] eqn:Hk; cbn; [|done].
    destruct (Hall k l Hk) as [pc Hpc]. rewrite Hpc. cbn.
    apply derefPathConf_Some in Hpc. eauto.
  - intros (mp & m & Hp & Hm & Hk). rewrite Hp. cbn. rewrite Hm.
    assert (map_Forall (fun _ l => is_Some (derefPathConf h l)) m) as Hall.
    { intros k l Hl. specialize (Hk k). rewrite Hl in Hk. destruct Hk as [Hk [pc Hpc]].
      rewrite Hpc in Hk. cbn in Hk. exists pc. by apply derefPathConf_Some. }
    rewrite decide_True by done. f_equal. destruct v as [fs ps]. cbn in *. f_equal.
    apply map_eq. intros k. rewrite lookup_omap. specialize (Hk k).
    destruct (m !! k) as [l|]; cbn; [|done].
    destruct Hk as [Hk [pc Hpc]]. rewrite Hpc in Hk |- *. cbn in Hk.
    by apply derefPathConf_Some.
Qed.

Lemma view_extends h h' p v : extends h h' -> view h p = Some v -> view h' p = Some v.
Proof.
  intros Hext. rewrite !view_Some. intros (mp & m & Hp & Hm & Hk).
  exists mp, m. split_and!; [by apply Hext..|].
  intros k. specialize (Hk k). destruct (m !! k); [|done].
  destruct Hk as [Hk [pc Hpc]]. split; [|by eauto].
  rewrite Hpc in Hk |- *. by apply Hext.
Qed.

Lemma cloned_view base h p mp m v : cloned base h p mp m v -> view h p = Some v.
Proof.
  intros (Hp & Hm & _ & _ & Hk & _). apply view_Some. exists mp, m.
  split_and!; [done..|]. intros k. specialize (Hk k). destruct (m !! k); naive_solver.
Qed.


(** ** The monad *)

Lemma run_bind {T U} (m : M T) (k : T -> M U) w :
  run (m ≫= k) w =
  match run m w with
  | (Next x, w') => run (k x) w'
  | (Return r, w') => (Return r, w')
  end.
Proof. done. Qed.

Lemma run_ret {T} (x : T) w : run (mret x) w = (Next x, w).
Proof. done. Qed.

Lemma withHeap_id w : withHeap w (heap w) = w.
Proof. by destruct w. Qed.

Lemma withHeap_withHeap w h h' : withHeap (withHeap w h) h' = withHeap w h'.
Proof. done. Qed.

Lemma run_load w l o : heap w !! l = Some o -> run (load l) w = (Next o, w).
Proof. intros H. cbn. by rewrite H. Qed.

Lemma run_loadConf w l c : heap w !! l = Some (ObjConf c) -> run (loadConf l) w = (Next c, w).
Proof. intros H. unfold loadConf. rewrite run_bind, (run_load _ _ _ H). done. Qed.

Lemma run_loadMap w l m : heap w !! l = Some (ObjMap m) -> run (loadMap l) w = (Next m, w).
Proof. intros H. unfold loadMap. rewrite run_bind, (run_load _ _ _ H). done. Qed.

Lemma run_loadPathConf w l pc :
  heap w !! l = Some (ObjPathConf pc) -> run (loadPathConf l) w = (Next pc, w).
Proof. intros H. unfold loadPathConf. rewrite run_bind, (run_load _ _ _ H). done. Qed.

Lemma run_alloc w o :
  run (alloc o) w = (Next (length (heap w)), withHeap w (heap w ++ [o])).
Proof. done. Qed.

Lemma run_store w l o : run (store l o) w = (Next tt, withHeap w (<[l := o]> (heap w))).
Proof. done. Qed.

(** ** Clone *)

Lemma clonePaths_spec entries w :
  Forall (fun e => is_Some (derefPathConf (heap w) e.2)) entries ->
  exists m' ext,
    run (clonePaths entries) w = (Next m', withHeap w (heap w ++ ext)) /\
    (forall k, match m' !! k with
               | Some l' =>
                   (length (heap w) <= l')%nat /\
                   exists l pc, (list_to_map entries : gmap string loc) !! k = Some l /\
                                heap w !! l = Some (ObjPathConf pc) /\
                                (heap w ++ ext) !! l' = Some (ObjPathConf pc)
               | None => (list_to_map entries : gmap string loc) !! k = None
               end) /\
    (forall k1 k2 l, m' !! k1 = Some l -> m' !! k2 = Some l -> k1 = k2).
Proof.
  induction 1 as [|[k0 l0] rest [pc0 Hpc0] Hrest IH]; cbn [clonePaths].
  - exists ∅, []. rewrite app_nil_r, withHeap_id. split_and!; [done| |].
    + intros k. by rewrite lookup_empty.
    + intros k1 k2 l. by rewrite lookup_empty.
  - destruct IH as (m & ext & Hrun & Hm & Hinj).
    apply derefPathConf_Some in Hpc0. cbn in Hpc0.
    exists (<[k0 := length (heap w ++ ext)]> m), (ext ++ [ObjPathConf pc0]).
    split_and!.
    + rewrite run_bind, Hrun, run_bind.
      rewrite (run_loadPathConf _ l0 pc0) by (by apply lookup_app_l_Some).
      rewrite run_bind, run_alloc. cbn. by rewrite app_assoc.
    + intros k. destruct (decide (k0 = k)) as [<-|Hne].
      * rewrite lookup_insert_eq. split; [rewrite length_app; lia|].
        exists l0, pc0. cbn. rewrite lookup_insert_eq. split_and!; [done..|].
        rewrite app_assoc. by apply list_lookup_middle.
      * rewrite lookup_insert_ne by done. specialize (Hm k). cbn.
        rewrite lookup_insert_ne by done.
        destruct (m !! k) as [l'|]; [|done].
        destruct Hm as [Hge (l & pc & Hl & Hpc & Hl')]. split; [done|].
        exists l, pc. split_and!; [done..|].
        rewrite app_assoc. by apply lookup_app_l_Some.
    + assert (forall k, m !! k <> Some (length (heap w ++ ext))) as Hfresh.
      { intros k Hk. specialize (Hm k). rewrite Hk in Hm.
        destruct Hm as [_ (l & pc & _ & _ & Hl')]. apply lookup_lt_Some in Hl'. lia. }
      intros k1 k2 l.
      destruct (decide (k0 = k1)) as [<-|H1], (decide (k0 = k2)) as [<-|H2]; [done|..].
      * rewrite lookup_insert_eq, lookup_insert_ne by done. intros [= <-] Hk. by destruct (Hfresh k2).
      * rewrite lookup_insert_eq, lookup_insert_ne by done. intros Hk [= <-]. by destruct (Hfresh k1).
      * rewrite !lookup_insert_ne by done. apply Hinj.
Qed.

Lemma Clone_spec w p v :
  view (heap w) p = Some v ->
  exists p' mp m' ext,
    run (Clone p) w = (Next p', withHeap w (heap w ++ ext)) /\
    cloned (length (heap w)) (heap w ++ ext) p' mp m' v.
Proof.
  intros (mp0 & m0 & Hp & Hm0 & Hk)%view_Some.
  destruct (clonePaths_spec (map_to_list m0) w) as (m' & ext & Hrun & Hm' & Hinj).
  { apply list.Forall_forall. intros [k l] Hin%elem_of_map_to_list. cbn.
    specialize (Hk k). rewrite Hin in Hk. destruct Hk as [Hl [pc Hpc]].
    exists pc. apply derefPathConf_Some. by rewrite Hl, Hpc. }
  set (h1 := heap w ++ ext) in *.
  exists (S (length h1)), (length h1), m', (ext ++ [ObjMap m'; ObjConf {| fields := vfields v; Paths := length h1 |}]).
  assert (heap w ++ ext ++ [ObjMap m'; ObjConf {| fields := vfields v; Paths := length h1 |}]
          = (h1 ++ [ObjMap m']) ++ [ObjConf {| fields := vfields v; Paths := length h1 |}]) as Heq.
  { unfold h1. by rewrite <- !app_assoc. }
  split.
  - unfold Clone. rewrite run_bind, (run_loadConf _ _ _ Hp). cbn [Paths fields].
    rewrite run_bind, (run_loadMap _ _ _ Hm0), run_bind, Hrun, run_bind, run_alloc.
    rewrite run_alloc. cbn. rewrite length_app. cbn. rewrite Heq.
    repeat f_equal. lia.
  - rewrite Heq. unfold cloned. split_and!.
    + replace (S (length h1)) with (length (h1 ++ [ObjMap m'])) by (rewrite length_app; cbn; lia).
      by apply list_lookup_middle.
    + apply lookup_app_l_Some. by apply list_lookup_middle.
    + unfold h1. rewrite length_app. lia.
    + unfold h1. rewrite length_app. lia.
    + intros k. specialize (Hm' k). rewrite list_to_map_to_list in Hm'.
      specialize (Hk k). destruct (m' !! k) as [l'|].
      * destruct Hm' as [Hge (l & pc & Hl & Hpc & Hl')]. rewrite Hl in Hk.
        destruct Hk as [Hk Hsome]. rewrite Hpc in Hk. split_and!; [done| |done].
        rewrite <- Hk. by do 2 apply lookup_app_l_Some.
      * by rewrite Hm' in Hk.
    + done.
Qed.


(** ** Writing to a clone *)

Lemma cloned_lt base h p mp m v k l :
  cloned base h p mp m v -> m !! k = Some l ->
  exists pc, vpaths v !! k = Some pc /\ h !! l = Some (ObjPathConf pc) /\ (base <= l)%nat.
Proof.
  intros (_ & _ & _ & _ & Hk & _) Hl. specialize (Hk k). rewrite Hl in Hk.
  destruct Hk as (Hb & Hh & [pc Hpc]). exists pc. rewrite Hpc in Hh. done.
Qed.

Lemma cloned_insert_other base h p mp m v l o :
  cloned base h p mp m v ->
  l <> p -> l <> mp -> (forall k, m !! k <> Some l) ->
  cloned base (<[l := o]> h) p mp m v.
Proof.
  intros (Hp & Hm & Hbp & Hbm & Hk & Hinj) Hlp Hlm Hl. unfold cloned.
  rewrite !list_lookup_insert_ne by done. split_and!; [done..| |done].
  intros k. specialize (Hk k). destruct (m !! k) as [l'|] eqn:Hk'; [|done].
  rewrite list_lookup_insert_ne; [done|]. intros ->. by destruct (Hl k).
Qed.

Lemma cloned_app base h p mp m v ext :
  cloned base h p mp m v -> cloned base (h ++ ext) p mp m v.
Proof.
  intros (Hp & Hm & Hbp & Hbm & Hk & Hinj). unfold cloned.
  split_and!; [by apply lookup_app_l_Some..|done|done| |done].
  intros k. specialize (Hk k). destruct (m !! k) as [l'|] eqn:Hk'; [|done].
  destruct Hk as (Hb & Hh & [pc Hpc]). split_and!; [done| |by eauto].
  rewrite Hpc in Hh |- *. by apply lookup_app_l_Some.
Qed.

Lemma cloned_set_fields base h p mp m v fs :
  cloned base h p mp m v ->
  cloned base (<[p := ObjConf {| fields := fs; Paths := mp |}]> h) p mp m
         {| vfields := fs; vpaths := vpaths v |}.
Proof.
  intros Hc. pose proof Hc as (Hp & Hm & Hbp & Hbm & Hk & Hinj). unfold cloned. cbn.
  assert (p <> mp) as Hne by (intros ->; congruence).
  rewrite list_lookup_insert_eq by (by eapply lookup_lt_Some).
  rewrite list_lookup_insert_ne by done. split_and!; [done..| |done].
  intros k. specialize (Hk k). destruct (m !! k) as [l|] eqn:Hl; [|done].
  destruct Hk as (Hb & Hh & [pc Hpc]). split_and!; [done| |by eauto].
  rewrite list_lookup_insert_ne; [done|]. intros <-. rewrite Hpc in Hh. cbn in Hh. congruence.
Qed.

Lemma cloned_set_path base h p mp m v name l pc :
  cloned base h p mp m v -> m !! name = Some l ->
  cloned base (<[l := ObjPathConf pc]> h) p mp m
         {| vfields := vfields v; vpaths := <[name := pc]> (vpaths v) |}.
Proof.
  intros Hc Hname. pose proof Hc as (Hp & Hm & Hbp & Hbm & Hk & Hinj).
  destruct (cloned_lt _ _ _ _ _ _ _ _ Hc Hname) as (pc0 & Hpc0 & Hl & Hbl).
  unfold cloned. cbn.
  rewrite !list_lookup_insert_ne by (intros <-; congruence).
  split_and!; [done..| |done].
  intros k. specialize (Hk k). destruct (decide (name = k)) as [<-|Hne].
  - rewrite Hname. rewrite lookup_insert_eq. cbn.
    rewrite list_lookup_insert_eq by (by eapply lookup_lt_Some). by eauto.
  - rewrite lookup_insert_ne by done. destruct (m !! k) as [l'|] eqn:Hl'; [|done].
    rewrite list_lookup_insert_ne; [done|]. intros <-. by destruct Hne; eapply Hinj.
Qed.

Lemma cloned_insert base h p mp m v name l pc :
  cloned base h p mp m v ->
  h !! l = Some (ObjPathConf pc) -> (base <= l)%nat -> (forall k, m !! k <> Some l) ->
  cloned base (<[mp := ObjMap (<[name := l]> m)]> h) p mp (<[name := l]> m)
         {| vfields := vfields v; vpaths := <[name := pc]> (vpaths v) |}.
Proof.
  intros Hc Hl Hbl Hfresh. pose proof Hc as (Hp & Hm & Hbp & Hbm & Hk & Hinj).
  unfold cloned. cbn.
  rewrite list_lookup_insert_ne by (intros <-; congruence).
  rewrite list_lookup_insert_eq by (by eapply lookup_lt_Some).
  split_and!; [done..| |].
  - intros k. specialize (Hk k). destruct (decide (name = k)) as [<-|Hne].
    + rewrite !lookup_insert_eq. cbn.
      rewrite list_lookup_insert_ne by (intros <-; congruence). by eauto.
    + rewrite !lookup_insert_ne by done. destruct (m !! k) as [l'|] eqn:Hl'; [|done].
      destruct Hk as (Hb & Hh & [pc' Hpc']). split_and!; [done| |by eauto].
      rewrite list_lookup_insert_ne; [done|]. intros <-. rewrite Hpc' in Hh. cbn in Hh. congruence.
  - intros k1 k2 l0.
    destruct (decide (name = k1)) as [<-|H1], (decide (name = k2)) as [<-|H2]; [done|..].
    + rewrite lookup_insert_eq, lookup_insert_ne by done. intros [= <-] Hk2. by destruct (Hfresh k2).
    + rewrite lookup_insert_eq, lookup_insert_ne by done. intros Hk1 [= <-]. by destruct (Hfresh k1).
    + rewrite !lookup_insert_ne by done. apply Hinj.
Qed.

Lemma cloned_delete base h p mp m v name :
  cloned base h p mp m v ->
  cloned base (<[mp := ObjMap (delete name m)]> h) p mp (delete name m)
         {| vfields := vfields v; vpaths := delete name (vpaths v) |}.
Proof.
  intros Hc. pose proof Hc as (Hp & Hm & Hbp & Hbm & Hk & Hinj).
  unfold cloned. cbn.
  rewrite list_lookup_insert_ne by (intros <-; congruence).
  rewrite list_lookup_insert_eq by (by eapply lookup_lt_Some).
  split_and!; [done..| |].
  - intros k. specialize (Hk k). destruct (decide (name = k)) as [<-|Hne].
    + by rewrite !lookup_delete_eq.
    + rewrite !lookup_delete_ne by done. destruct (m !! k) as [l'|] eqn:Hl'; [|done].
      destruct Hk as (Hb & Hh & [pc' Hpc']). split_and!; [done| |by eauto].
      rewrite list_lookup_insert_ne; [done|]. intros <-. rewrite Hpc' in Hh. cbn in Hh. congruence.
  - intros k1 k2 l0 H1 H2. apply lookup_delete_Some in H1 as [_ H1].
    apply lookup_delete_Some in H2 as [_ H2]. by eapply Hinj.
Qed.


(** ** Each handler against its reading on values *)

Section Refinement.
Context `{RT : GoRuntime} `{CP : ConfPackage}.




Lemma validateAndCommit_post w h base p mp m v' :
  cloned base h p mp m v' ->
  extends (heap w) h ->
  post w (Candidate v') (serve (validateAndCommit p) (withHeap w h)).
Proof.
  intros Hc Hext. apply cloned_view in Hc.
  unfold post, serve, validateAndCommit. rewrite run_bind. cbn [run Conf_Check withHeap heap].
  rewrite Hc. destruct (Check v'); cbn; by rewrite ?Hc.
Qed.

Lemma serve_bind {T} (m : M T) (k : T -> M Response) w :
  serve (m ≫= k) w =
  match run m w with
  | (Next x, w') => serve (k x) w'
  | (Return r, w') => (r, w')
  end.
Proof. unfold serve. rewrite run_bind. by destruct (run m w) as [[x|r] w']. Qed.

Lemma post_refused w h :
  extends (heap w) h -> post w Refused (Status StatusBadRequest, withHeap w h).
Proof. done. Qed.

Lemma post_panics w h :
  extends (heap w) h -> post w Panics (Panicked, withHeap w h).
Proof. done. Qed.

Lemma post_refused_now w : post w Refused (Status StatusBadRequest, w).
Proof. split; [apply extends_refl|done]. Qed.

Lemma run_fillStruct_conf w h p fs0 mp source :
  h !! p = Some (ObjConf {| fields := fs0; Paths := mp |}) ->
  run (fillStruct p source) (withHeap w h) =
  (if (fillStruct_loop fs0 source).2 then Next tt else Return Panicked,
   withHeap w (<[p := ObjConf {| fields := (fillStruct_loop fs0 source).1; Paths := mp |}]> h)).
Proof.
  intros Hp. unfold fillStruct. rewrite run_bind, (run_load (withHeap w h) _ _ Hp).
  cbn [fields Paths]. destruct (fillStruct_loop fs0 source) as [fs ok].
  rewrite run_bind, run_store. by destruct ok.
Qed.

Lemma run_fillStruct_path w h p pc source :
  h !! p = Some (ObjPathConf pc) ->
  run (fillStruct p source) (withHeap w h) =
  (if (fillStruct_loop pc source).2 then Next tt else Return Panicked,
   withHeap w (<[p := ObjPathConf (fillStruct_loop pc source).1]> h)).
Proof.
  intros Hp. unfold fillStruct. rewrite run_bind, (run_load (withHeap w h) _ _ Hp).
  destruct (fillStruct_loop pc source) as [fs ok].
  rewrite run_bind, run_store. by destruct ok.
Qed.

Lemma refines_set body w v :
  view (heap w) (conf w) = Some v -> refines (ConfigSet body) w v.
Proof.
  intros Hv. unfold refines. cbn [handlerOf build]. unfold onConfigSet.
  destruct (loadConfData body) as [in_|]; [|apply post_refused_now].
  destruct (Clone_spec w _ v Hv) as (p & mp & m & ext & Hrun & Hc).
  rewrite serve_bind. cbn [run getConf]. rewrite serve_bind, Hrun.
  pose proof Hc as (Hp & _ & Hbp & _).
  rewrite serve_bind, (run_fillStruct_conf _ _ _ _ _ _ Hp). unfold filled.
  destruct (fillStruct_loop (vfields v) in_) as [fs ok]. cbn [fst snd].
  assert (extends (heap w) (<[p := ObjConf {| fields := fs; Paths := mp |}]> (heap w ++ ext))) as Hext.
  { apply extends_insert_fresh; [apply extends_app|done]. }
  destruct ok; [|by apply post_panics].
  eapply validateAndCommit_post; [|done]. by apply cloned_set_fields.
Qed.


Lemma cloned_lookup_None base h p mp m v k :
  cloned base h p mp m v -> m !! k = None -> vpaths v !! k = None.
Proof. intros (_ & _ & _ & _ & Hk & _) Hl. specialize (Hk k). by rewrite Hl in Hk. Qed.

Lemma cloned_bounds base h p mp m v :
  cloned base h p mp m v ->
  (base <= p < length h)%nat /\ (base <= mp < length h)%nat /\
  forall k, m !! k <> Some (length h).
Proof.
  intros Hc. pose proof Hc as (Hp & Hm & Hbp & Hbm & _).
  apply lookup_lt_Some in Hp, Hm. split_and!; [done..|].
  intros k Hk. destruct (cloned_lt _ _ _ _ _ _ _ _ Hc Hk) as (? & _ & Hl%lookup_lt_Some & _). lia.
Qed.

Lemma refines_add param body w v :
  view (heap w) (conf w) = Some v -> refines (ConfigPathsAdd param body) w v.
Proof.
  intros Hv. unfold refines. cbn [handlerOf build]. unfold onConfigPathsAdd.
  destruct (badName param); [apply post_refused_now|].
  destruct (loadConfPathData body) as [in_|]; [|apply post_refused_now].
  destruct (Clone_spec w _ v Hv) as (p & mp & m & ext & Hrun & Hc).
  rewrite serve_bind. cbn [run getConf]. rewrite serve_bind, Hrun.
  pose proof Hc as (Hp & Hm & _).
  destruct (cloned_bounds _ _ _ _ _ _ Hc) as ([Hbp Hlp] & [Hbm Hlm] & Hfresh).
  rewrite serve_bind, (run_loadConf (withHeap w (heap w ++ ext)) _ _ Hp). cbn [Paths].
  rewrite serve_bind, (run_loadMap (withHeap w (heap w ++ ext)) _ _ Hm).
  set (h1 := heap w ++ ext) in *. set (name := stripSlash param).
  destruct (m !! name) as [l|] eqn:Hname.
  - destruct (cloned_lt _ _ _ _ _ _ _ _ Hc Hname) as (pc & -> & _).
    apply post_refused, extends_app.
  - rewrite (cloned_lookup_None _ _ _ _ _ _ _ Hc Hname).
    rewrite serve_bind. unfold newPathConf. rewrite run_alloc. cbn [heap withHeap].
    fold zeroPathConf. rewrite withHeap_withHeap.
    rewrite serve_bind, (run_fillStruct_path _ _ _ zeroPathConf)
      by (by apply list_lookup_middle).
    unfold filled. destruct (fillStruct_loop zeroPathConf in_) as [fs ok]. cbn [fst snd].
    set (h2 := h1 ++ [ObjPathConf zeroPathConf]).
    assert (extends (heap w) (<[length h1 := ObjPathConf fs]> h2)) as Hext3.
    { apply extends_insert_fresh; [|unfold h1; rewrite length_app; lia].
      unfold h2, h1. rewrite <- app_assoc. apply extends_app. }
    destruct ok; [|by apply post_panics].
    rewrite serve_bind, run_store. cbn [heap withHeap]. rewrite withHeap_withHeap.
    eapply (validateAndCommit_post _ _ (length (heap w))).
    + apply cloned_insert;
        [|by apply list_lookup_insert_eq; unfold h2; rewrite length_app; cbn; lia
         |unfold h1; rewrite length_app; lia|done].
      apply cloned_insert_other; [by apply cloned_app|lia|lia|done].
    + by apply extends_insert_fresh.
Qed.

Lemma refines_edit param body w v :
  view (heap w) (conf w) = Some v -> refines (ConfigPathsEdit param body) w v.
Proof.
  intros Hv. unfold refines. cbn [handlerOf build]. unfold onConfigPathsEdit.
  destruct (badName param); [apply post_refused_now|].
  destruct (loadConfPathData body) as [in_|]; [|apply post_refused_now].
  destruct (Clone_spec w _ v Hv) as (p & mp & m & ext & Hrun & Hc).
  rewrite serve_bind. cbn [run getConf]. rewrite serve_bind, Hrun.
  pose proof Hc as (Hp & Hm & _).
  rewrite serve_bind, (run_loadConf (withHeap w (heap w ++ ext)) _ _ Hp). cbn [Paths].
  rewrite serve_bind, (run_loadMap (withHeap w (heap w ++ ext)) _ _ Hm).
  set (h1 := heap w ++ ext) in *. set (name := stripSlash param).
  destruct (m !! name) as [l|] eqn:Hname.
  - destruct (cloned_lt _ _ _ _ _ _ _ _ Hc Hname) as (pc & -> & Hl & Hbl).
    rewrite serve_bind, (run_fillStruct_path _ _ _ pc) by done.
    unfold filled. destruct (fillStruct_loop pc in_) as [fs ok]. cbn [fst snd].
    assert (extends (heap w) (<[l := ObjPathConf fs]> h1)) as Hext.
    { apply extends_insert_fresh; [apply extends_app|done]. }
    destruct ok; [|by apply post_panics].
    eapply validateAndCommit_post; [|done]. by apply cloned_set_path.
  - rewrite (cloned_lookup_None _ _ _ _ _ _ _ Hc Hname).
    apply post_refused, extends_app.
Qed.

Lemma refines_remove param w v :
  view (heap w) (conf w) = Some v -> refines (ConfigPathsRemove param) w v.
Proof.
  intros Hv. unfold refines. cbn [handlerOf build]. unfold onConfigPathsDelete.
  destruct (badName param); [apply post_refused_now|].
  destruct (Clone_spec w _ v Hv) as (p & mp & m & ext & Hrun & Hc).
  rewrite serve_bind. cbn [run getConf]. rewrite serve_bind, Hrun.
  pose proof Hc as (Hp & Hm & _ & Hbm & _).
  rewrite serve_bind, (run_loadConf (withHeap w (heap w ++ ext)) _ _ Hp). cbn [Paths].
  rewrite serve_bind, (run_loadMap (withHeap w (heap w ++ ext)) _ _ Hm).
  set (h1 := heap w ++ ext) in *. set (name := stripSlash param).
  destruct (m !! name) as [l|] eqn:Hname.
  - destruct (cloned_lt _ _ _ _ _ _ _ _ Hc Hname) as (pc & -> & _).
    rewrite serve_bind, run_store. cbn [heap withHeap]. rewrite withHeap_withHeap.
    eapply validateAndCommit_post; [by apply cloned_delete|].
    apply extends_insert_fresh; [apply extends_app|done].
  - rewrite (cloned_lookup_None _ _ _ _ _ _ _ Hc Hname).
    apply post_refused, extends_app.
Qed.

Lemma handler_refines e w v :
  view (heap w) (conf w) = Some v -> refines e w v.
Proof.
  destruct e; [apply refines_set|apply refines_add|apply refines_edit|apply refines_remove].
Qed.

End Refinement.

Section Claims.
Context `{RT : GoRuntime} `{CP : ConfPackage}.


Lemma post_ok_inv w b res :
  post w b res -> res.1 = Status StatusOK ->
  exists v', b = Candidate v' /\ Check v' = true /\
             view (heap res.2) (conf res.2) = Some v' /\
             apiConfigSet res.2 = apiConfigSet w ++ [conf res.2].
Proof.
  intros [_ H] Hok. destruct b as [v'| |].
  - destruct (Check v') eqn:Hc.
    + exists v'. by destruct H as (_ & ? & ?).
    + destruct H as [H _]. rewrite H in Hok. discriminate Hok.
  - destruct H as [H _]. rewrite H in Hok. discriminate Hok.
  - destruct H as [H _]. rewrite H in Hok. discriminate Hok.
Qed.

Lemma post_not_ok w v b res :
  view (heap w) (conf w) = Some v ->
  post w b res -> res.1 <> Status StatusOK ->
  view (heap res.2) (conf res.2) = Some v /\ unchanged w res.2.
Proof.
  intros Hv [Hext H] Hno.
  assert (unchanged w res.2) as Hun.
  { destruct b as [v'| |]; [|by destruct H..]. destruct (Check v'); by destruct H. }
  split; [|done]. destruct Hun as [-> _]. by eapply view_extends.
Qed.




(** ** set after get *)















(** ** Validation before commit *)

(** C1. Every mutating endpoint builds the new configuration on a clone
    and validates it before it commits. A response 200 means that the
    configuration built passed [Check], is now the stored one and was
    handed to [apiConfigSet]; a configuration built that fails [Check] is
    answered with 400; and whenever the response is not 200 the stored
    configuration is the one stored before, and nothing was handed on. The
    configuration stored before is in no case written to. *)
Theorem C1_validate_before_commit (e : Endpoint) (w : World) (v : ConfView) :
  view (heap w) (conf w) = Some v ->
  ((serve (handlerOf e) w).1 = Status StatusOK ->
     exists v', build e v = Candidate v' /\ Check v' = true /\
                view (heap (serve (handlerOf e) w).2) (conf (serve (handlerOf e) w).2) = Some v' /\
                apiConfigSet (serve (handlerOf e) w).2
                  = apiConfigSet w ++ [conf (serve (handlerOf e) w).2]) /\
  (forall v', build e v = Candidate v' -> Check v' = false ->
     (serve (handlerOf e) w).1 = Status StatusBadRequest) /\
  ((serve (handlerOf e) w).1 <> Status StatusOK ->
     view (heap (serve (handlerOf e) w).2) (conf (serve (handlerOf e) w).2) = Some v /\
     conf (serve (handlerOf e) w).2 = conf w /\
     apiConfigSet (serve (handlerOf e) w).2 = apiConfigSet w) /\
  view (heap (serve (handlerOf e) w).2) (conf w) = Some v.
Proof.
  intros Hv. pose proof (handler_refines e w v Hv) as Href. unfold refines in Href.
  split_and!.
  - intros Hok. by apply (post_ok_inv _ _ _ Href Hok).
  - intros v' Hb Hc. rewrite Hb in Href. destruct Href as [_ Href].
    rewrite Hc in Href. by destruct Href.
  - intros Hno. destruct (post_not_ok _ _ _ _ Hv Href Hno) as (? & ? & ?). done.
  - destruct Href as [Hext _]. by eapply view_extends.
Qed.

(** C6. Adding a path under a name the configuration already has, and
    editing a path under a name it does not have, are answered with 400 and
    commit nothing. *)
Theorem C6_add_existing_edit_missing (w : World) (v : ConfView)
    (param : string) (body : option JSON) :
  view (heap w) (conf w) = Some v ->
  (is_Some (vpaths v !! stripSlash param) ->
     (serve (onConfigPathsAdd param body) w).1 = Status StatusBadRequest /\
     view (heap (serve (onConfigPathsAdd param body) w).2)
          (conf (serve (onConfigPathsAdd param body) w).2) = Some v /\
     unchanged w (serve (onConfigPathsAdd param body) w).2) /\
  (vpaths v !! stripSlash param = None ->
     (serve (onConfigPathsEdit param body) w).1 = Status StatusBadRequest /\
     view (heap (serve (onConfigPathsEdit param body) w).2)
          (conf (serve (onConfigPathsEdit param body) w).2) = Some v /\
     unchanged w (serve (onConfigPathsEdit param body) w).2).
Proof.
  intros Hv. split.
  - intros [pc Hpc].
    pose proof (handler_refines (ConfigPathsAdd param body) w v Hv) as Href.
    unfold refines in Href. cbn [handlerOf] in Href.
    assert (build (ConfigPathsAdd param body) v = Refused) as Hb.
    { cbn [build]. destruct (badName param); [done|].
      destruct (loadConfPathData body); [|done]. by rewrite Hpc. }
    rewrite Hb in Href. destruct Href as [Hext [Hst Hun]]. split_and!; [done| |done].
    destruct Hun as [-> _]. by eapply view_extends.
  - intros Hnone.
    pose proof (handler_refines (ConfigPathsEdit param body) w v Hv) as Href.
    unfold refines in Href. cbn [handlerOf] in Href.
    assert (build (ConfigPathsEdit param body) v = Refused) as Hb.
    { cbn [build]. destruct (badName param); [done|].
      destruct (loadConfPathData body); [|done]. by rewrite Hnone. }
    rewrite Hb in Href. destruct Href as [Hext [Hst Hun]]. split_and!; [done| |done].
    destruct Hun as [-> _]. by eapply view_extends.
Qed.


End Claims.

(** ** The statements at the small instance *)

Lemma exampleWorld_view :
  view (heap exampleWorld) (conf exampleWorld) = Some exampleView.
Proof. vm_compute. reflexivity. Qed.



Lemma C1_validate_before_commit_witness :
  view (heap exampleWorld) (conf exampleWorld) = Some exampleView /\
  view (heap (serve (handlerOf (RT := exampleRuntime) (CP := exampleConf)
                       (ConfigPathsEdit "/cam" (Some (JObject [("source", JString "rtsp://host/s")]))))
                exampleWorld).2)
       (conf exampleWorld) = Some exampleView.
Proof.
  split; [exact exampleWorld_view|].
  apply (C1_validate_before_commit (RT := exampleRuntime) (CP := exampleConf)
           (ConfigPathsEdit "/cam" (Some (JObject [("source", JString "rtsp://host/s")])))
           exampleWorld exampleView).
  exact exampleWorld_view.
Defined.







Lemma C6_add_existing_edit_missing_witness :
  (serve (onConfigPathsAdd (RT := exampleRuntime) (CP := exampleConf) "/cam" (Some JNull))
     exampleWorld).1 = Status StatusBadRequest /\
  (serve (onConfigPathsEdit (RT := exampleRuntime) (CP := exampleConf) "/door" (Some JNull))
     exampleWorld).1 = Status StatusBadRequest.
Proof.
  split.
  - apply (C6_add_existing_edit_missing (RT := exampleRuntime) (CP := exampleConf)
             exampleWorld exampleView "/cam" (Some JNull) exampleWorld_view).
    exists examplePath. reflexivity.
  - apply (C6_add_existing_edit_missing (RT := exampleRuntime) (CP := exampleConf)
             exampleWorld exampleView "/door" (Some JNull) exampleWorld_view).
    reflexivity.
Defined.

End api_proofs.

(** ** The RTSP session *)

Module rtsp_session_proofs.
Import core rtsp_session.

Section Session.
Context `{PM : rtspSessionPathManager} `{CO : Collaborators}.


Lemma ensureNonce_s w : s (ensureNonce w) = s w.
Proof. unfold ensureNonce. by destruct (String.eqb _ _). Qed.

Lemma ensureNonce_calls w : calls (ensureNonce w) = calls w.
Proof. unfold ensureNonce. by destruct (String.eqb _ _). Qed.

Lemma ensureNonce_conn w :
  conn_ip (c (ensureNonce w)) = conn_ip (c w) /\
  conn_uuid (c (ensureNonce w)) = conn_uuid (c w) /\
  authNonce (c (ensureNonce w)) =
    (if String.eqb (authNonce (c w)) "" then GenerateNonce else authNonce (c w)).
Proof. unfold ensureNonce. by destruct (String.eqb _ _). Qed.

Lemma transport_allowed ctx w :
  (ctx_Transport ctx = TransportTCP -> TransportTCP ∈ protocols (s w)) ->
  bool_decide (ctx_Transport ctx = TransportTCP)
  && negb (bool_decide (TransportTCP ∈ protocols (s w))) = false.
Proof.
  intros H. destruct (decide (ctx_Transport ctx = TransportTCP)) as [Heq|Hne].
  - rewrite (bool_decide_eq_true_2 _ (H Heq)). by rewrite andb_false_r.
  - by rewrite (bool_decide_eq_false_2 _ Hne).
Qed.

(** What [onSetup] does in the play direction, by the answer of the path
    manager to the request it sends. *)
Lemma onSetup_play ctx w :
  playSetup ctx w ->
  exists req,
    calls (onSetup ctx w).2 = calls w ++ [CallReaderAdd req] /\
    c (onSetup ctx w).2 = c (ensureNonce w) /\
    author req = rtspSessionAuthor (uuid (s w)) /\
    pathName req = dropFirst (ctx_Path ctx) /\
    skipAuth req = false /\
    query (credentials req) = ctx_Query ctx /\
    ip (credentials req) = Some (conn_ip (c w)) /\
    proto (credentials req) = authProtocolRTSP /\
    id (credentials req) = Some (conn_uuid (c w)) /\
    rtspRequest (credentials req) = Some (ctx_Request ctx) /\
    rtspBaseURL (credentials req)
      = Some {| Scheme := Scheme (RequestURL (ctx_Request ctx));
                Host := Host (RequestURL (ctx_Request ctx));
                Path := if String.eqb (ctx_Query ctx) ""
                        then String.append (dropFirst (ctx_Path ctx)) "/"
                        else dropFirst (ctx_Path ctx);
                RawQuery := if String.eqb (ctx_Query ctx) ""
                            then ctx_Query ctx
                            else String.append (ctx_Query ctx) "/" |} /\
    rtspNonce (credentials req) = authNonce (c (onSetup ctx w).2) /\
    match res_err (readerAdd req) with
    | Some (pathErrAuth wrapped) =>
        (onSetup ctx w).1 =
          Some ((handleAuthError (c (onSetup ctx w).2) wrapped).1, None,
                (handleAuthError (c (onSetup ctx w).2) wrapped).2) /\
        s (onSetup ctx w).2 = s w
    | Some (pathErrNoOnePublishing n) =>
        (onSetup ctx w).1
          = Some (respond StatusNotFound, None, Some (pathErrNoOnePublishing n)) /\
        s (onSetup ctx w).2 = s w
    | Some (errorString msg) =>
        (onSetup ctx w).1 = Some (respond StatusBadRequest, None, Some (errorString msg)) /\
        s (onSetup ctx w).2 = s w
    | None =>
        (onSetup ctx w).1
          = (fun st => (respond StatusOK, Some (rtspStream st), None))
              <$> res_stream (readerAdd req) /\
        s (onSetup ctx w).2 =
          setPathStreamState (s w) (res_path (readerAdd req)) (res_stream (readerAdd req))
            ServerSessionStatePrePlay
    end.
Proof.
  intros (Hpath & Htr & Hst). unfold onSetup. rewrite Hpath.
  rewrite (transport_allowed _ _ Htr).
  destruct (ensureNonce_conn w) as (Hip & Hid & _).
  pose proof (ensureNonce_s w) as Hs. pose proof (ensureNonce_calls w) as Hc.
  set (w1 := ensureNonce w) in *.
  assert (forall A (k k' : A),
            match session_State (s w) with
            | ServerSessionStateInitial | ServerSessionStatePrePlay => k
            | _ => k'
            end = k) as Hdir.
  { intros A k k'. by destruct Hst as [-> | ->]. }
  rewrite Hdir. clear Hdir.
  cbv zeta.
  match goal with |- context [readerAdd ?r] => exists r end.
  cbn [author pathName skipAuth credentials query ip proto id rtspRequest rtspNonce rtspBaseURL].
  destruct (res_err (readerAdd _)) as [[wrapped|n|msg]|] eqn:Herr; cbn [fst snd].
  all: try destruct (handleAuthError _ wrapped) as [r e] eqn:Hauth.
  all: try destruct (res_stream (readerAdd _)) as [st|] eqn:Hstream.
  all: cbn; rewrite ?Hs, ?Hc, ?Hip, ?Hid; split_and!; try done.
  all: try (by destruct (String.eqb (ctx_Query ctx) "")).
  cbn in Hauth. by rewrite Hauth.
Qed.

(** What [onAnnounce] does with a path that has its slash, by the answer
    of the path manager to the request it sends. *)
Lemma onAnnounce_spec ctx w :
  noLeadingSlash (ann_Path ctx) = false ->
  exists req,
    calls (onAnnounce ctx w).2 = calls w ++ [CallPublisherAdd req] /\
    c (onAnnounce ctx w).2 = c (ensureNonce w) /\
    pub_author req = rtspSessionAuthor (uuid (s w)) /\
    pub_pathName req = dropFirst (ann_Path ctx) /\
    pub_skipAuth req = false /\
    match ann_err (publisherAdd req) with
    | Some (pathErrAuth wrapped) =>
        (onAnnounce ctx w).1 = handleAuthError (c (onAnnounce ctx w).2) wrapped /\
        s (onAnnounce ctx w).2 = s w
    | Some e =>
        (onAnnounce ctx w).1 = (respond StatusBadRequest, Some e) /\
        s (onAnnounce ctx w).2 = s w
    | None =>
        (onAnnounce ctx w).1 = (respond StatusOK, None) /\
        s (onAnnounce ctx w).2 =
          setPathStreamState (s w) (ann_path (publisherAdd req)) (s_stream (s w))
            ServerSessionStatePreRecord
    end.
Proof.
  intros Hpath. unfold onAnnounce. rewrite Hpath. cbv zeta.
  pose proof (ensureNonce_s w) as Hs. pose proof (ensureNonce_calls w) as Hc.
  set (w1 := ensureNonce w) in *.
  match goal with |- context [publisherAdd ?r] => exists r end.
  cbn [pub_author pub_pathName pub_skipAuth].
  destruct (ann_err (publisherAdd _)) as [[wrapped|n|msg]|] eqn:Herr; cbn [fst snd].
  all: cbn; rewrite ?Hs, ?Hc; split_and!; done.
Qed.


(** C7. A play-direction SETUP that the path manager rejects is answered by
    the type of the error: 404 Not Found for no-one-publishing, whatever
    [handleAuthError] answers for an authentication error, and 400 Bad
    Request for any other error. The error is handed back, and the session
    is left as it was. *)
Theorem C7_setup_rejections (ctx : ServerHandlerOnSetupCtx) (w : World)
    (req : pathReaderAddReq) (err : error) :
  playSetup ctx w ->
  calls (onSetup ctx w).2 = calls w ++ [CallReaderAdd req] ->
  res_err (readerAdd req) = Some err ->
  s (onSetup ctx w).2 = s w /\
  match err with
  | pathErrNoOnePublishing _ =>
      (onSetup ctx w).1 = Some (respond StatusNotFound, None, Some err) /\
      (fun r => StatusCode r.1.1) <$> (onSetup ctx w).1 = Some 404
  | pathErrAuth wrapped =>
      (onSetup ctx w).1 =
        Some ((handleAuthError (c (onSetup ctx w).2) wrapped).1, None,
              (handleAuthError (c (onSetup ctx w).2) wrapped).2)
  | errorString _ =>
      (onSetup ctx w).1 = Some (respond StatusBadRequest, None, Some err) /\
      (fun r => StatusCode r.1.1) <$> (onSetup ctx w).1 = Some 400
  end.
Proof.
  intros Hplay Hcalls Herr.
  destruct (onSetup_play ctx w Hplay)
    as (req' & Hcalls' & _ & _ & _ & _ & _ & _ & _ & _ & _ & _ & _ & H).
  rewrite Hcalls in Hcalls'. apply app_inv_head in Hcalls'. injection Hcalls' as <-.
  rewrite Herr in H. destruct err as [wrapped|n|msg]; destruct H as [H1 H2];
    (split; [done|]); rewrite ?H1; done.
Qed.


(** C8. The state the session records follows the handlers. An ANNOUNCE
    for a path with its slash sends one request to [publisherAdd], and when
    the path manager accepts it the handler answers 200 and records
    preRecord; a play-direction SETUP sends one request to [readerAdd], and
    when the path manager accepts it and returns a stream the handler
    answers 200 and records prePlay; PLAY takes prePlay to play; a RECORD
    whose [publisherStart] succeeds records record; PAUSE takes play back
    to prePlay, and record back to preRecord after calling [publisherStop]
    on the path. *)
Theorem C8_recorded_state_transitions (w : World) :
  inSync w ->
  (forall ctx,
     noLeadingSlash (ann_Path ctx) = false ->
     exists req,
       calls (onAnnounce ctx w).2 = calls w ++ [CallPublisherAdd req] /\
       pub_pathName req = dropFirst (ann_Path ctx) /\
       (ann_err (publisherAdd req) = None ->
          (onAnnounce ctx w).1 = (respond StatusOK, None) /\
          state (s (onAnnounce ctx w).2) = ServerSessionStatePreRecord)) /\
  (forall ctx,
     playSetup ctx w ->
     exists req,
       calls (onSetup ctx w).2 = calls w ++ [CallReaderAdd req] /\
       pathName req = dropFirst (ctx_Path ctx) /\
       (forall st,
          res_err (readerAdd req) = None -> res_stream (readerAdd req) = Some st ->
          (onSetup ctx w).1 = Some (respond StatusOK, Some (rtspStream st), None) /\
          state (s (onSetup ctx w).2) = ServerSessionStatePrePlay)) /\
  (state (s w) = ServerSessionStatePrePlay -> is_Some (s_path (s w)) ->
     (onPlay w).1 = Some (respond StatusOK, None) /\
     state (s (onPlay w).2) = ServerSessionStatePlay) /\
  (forall p,
     s_path (s w) = Some p ->
     start_err (publisherStart p {| start_author := rtspSessionAuthor (uuid (s w));
                                    start_medias := session_AnnouncedMedias (s w);
                                    generateRTPPackets := false |}) = None ->
     (onRecord w).1 = Some (respond StatusOK, None) /\
     state (s (onRecord w).2) = ServerSessionStateRecord) /\
  (state (s w) = ServerSessionStatePlay ->
     (onPause w).1 = Some (respond StatusOK, None) /\
     state (s (onPause w).2) = ServerSessionStatePrePlay) /\
  (forall p,
     state (s w) = ServerSessionStateRecord -> s_path (s w) = Some p ->
     (onPause w).1 = Some (respond StatusOK, None) /\
     state (s (onPause w).2) = ServerSessionStatePreRecord /\
     calls (onPause w).2 = calls w ++ [CallPublisherStop p (rtspSessionAuthor (uuid (s w)))]).
Proof.
  unfold inSync. intros Hsync. split_and!.
  - intros ctx Hpath.
    destruct (onAnnounce_spec ctx w Hpath) as (req & Hcalls & _ & _ & Hname & _ & H).
    exists req. split_and!; [done..|]. intros Hok. rewrite Hok in H.
    destruct H as [-> ->]. done.
  - intros ctx Hplay.
    destruct (onSetup_play ctx w Hplay)
      as (req & Hcalls & _ & _ & Hname & _ & _ & _ & _ & _ & _ & _ & _ & H).
    exists req. split_and!; [done..|]. intros st Hok Hst. rewrite Hok, Hst in H.
    destruct H as [-> ->]. done.
  - intros Hst [p Hp]. unfold onPlay. rewrite <- Hsync, Hst, Hp. cbn.
    by destruct (negb _).
  - intros p Hp Hok. unfold onRecord. rewrite Hp. cbv zeta. by rewrite Hok.
  - intros Hst. unfold onPause. rewrite <- Hsync, Hst. by destruct (onReadCmd (s w)).
  - intros p Hst Hp. unfold onPause. rewrite <- Hsync, Hst, Hp. done.
Qed.

End Session.

End rtsp_session_proofs.

(** ** The WebRTC connection *)

Module webrtc_conn_proofs.
Import core webrtc_conn.

Section Conn.
Context `{PM : webRTCConnPathManager} `{PE : Peer}.

(** ** The tracks the two functions make *)








(** ** Runs *)

Lemma fst_act a r : (act a r).1 = r.1.
Proof. done. Qed.

Lemma fst_defer d r : (defer d r).1 = r.1.
Proof. unfold defer. by destruct r as [[] acts]. Qed.

Lemma fst_try_ok a k : (try a None k).1 = k.1.
Proof. done. Qed.

Lemma defer_returned d err acts : defer d (Returned err, acts) = (Returned err, acts ++ d).
Proof. done. Qed.

Lemma defer_blocked d acts : defer d (Blocked, acts) = (Blocked, acts).
Proof. done. Qed.

Lemma addTracks_ok tracks k :
  Forall (fun t => AddTrack (track t) = None) tracks ->
  addTracks tracks k = (k.1, ((fun t => DoAddTrack (track t)) <$> tracks) ++ k.2).
Proof.
  induction 1 as [|t rest Ht _ IH]; [by destruct k|]. cbn. by rewrite Ht, IH.
Qed.

Lemma candidateLoop_handled pre rest k :
  Forall handled pre ->
  candidateLoop (pre ++ rest) k
  = ((candidateLoop rest k).1, (pre ≫= candidateAction) ++ (candidateLoop rest k).2).
Proof.
  induction 1 as [|e pre He _ IH]; [cbn; by destruct (candidateLoop rest k)|].
  destruct e as [cand [err|]|cand [err|]| | | |]; try done; cbn; by rewrite IH.
Qed.

Lemma candidateLoop_waiting pre k :
  Forall handled pre -> candidateLoop pre k = (Blocked, pre ≫= candidateAction).
Proof.
  induction 1 as [|e pre He _ IH]; [done|].
  destruct e as [cand [err|]|cand [err|]| | | |]; try done; cbn; by rewrite IH.
Qed.

(** Under [entersLoop], [runInner] gets to the loop: until then it has
    done the signaling, and what follows is [handshake] and the two
    deferred calls. *)
Lemma runInner_entersLoop c p st tracks events final :
  entersLoop c p st tracks ->
  runInner c events final
  = act (DoReaderAdd {| author := webRTCConnAuthor (uuid c); core.pathName := pathName c;
                        skipAuth := true; credentials := noCredentials |})
      (defer [DoReaderRemove p (webRTCConnAuthor (uuid c))]
         (act DoWriteICEServers
            (act DoReadOffer
               (act DoNewPeerConnection
                  (defer [DoPcClose]
                     ((handshake c (Some p) tracks events final).1,
                      ((fun t => DoAddTrack (track t)) <$> tracks)
                      ++ [DoSetRemoteDescription; DoCreateAnswer; DoSetLocalDescription;
                          DoWriteAnswer]
                      ++ (handshake c (Some p) tracks events final).2)))))).
Proof.
  intros (offer & answer & Hadd & Hv & Ha & Htr & Hne & Hice & Hoffer & Hpc &
          Htracks & Hrem & Hans & Hloc & Hwa).
  unfold runInner. cbv zeta. rewrite Hadd. cbn [res_err res_path res_stream deferReaderRemove].
  destruct (createVideoTrack (medias st)) as [v ev]. cbn in Hv. subst ev.
  destruct (createAudioTrack (medias st)) as [a ea]. cbn in Ha. subst ea.
  cbn [fst] in Htr. rewrite <- Htr.
  destruct tracks as [|t0 tracks']; [done|].
  rewrite Hice, Hoffer, Hpc. do 3 f_equal. cbn [try]. do 3 f_equal.
  rewrite addTracks_ok by done. by rewrite Hrem, Hans, Hloc, Hwa.
Qed.

(** C9. When the signaling has gone through, [runInner] arms the timer
    once, with ten seconds, right before the first select of the loop.
    While the loop has received nothing but candidates that it handled, the
    connection is still waiting. When the select then receives the expiry
    of the timer, [runInner] returns "deadline exceeded", having stopped the
    timer, closed the peer connection and removed the reader, and [run]
    has the connection closed and logs that error. *)
Theorem C9_handshake_deadline (c : webRTCConn) (p : path) (st : stream)
    (tracks : list webRTCTrack) (pre post : list LoopEvent) (final : option FinalEvent) :
  entersLoop c p st tracks ->
  Forall handled pre ->
  runInner c pre final
    = (Blocked,
       [DoReaderAdd {| author := webRTCConnAuthor (uuid c); core.pathName := pathName c;
                       skipAuth := true; credentials := noCredentials |};
        DoWriteICEServers; DoReadOffer; DoNewPeerConnection]
       ++ ((fun t => DoAddTrack (track t)) <$> tracks)
       ++ [DoSetRemoteDescription; DoCreateAnswer; DoSetLocalDescription; DoWriteAnswer;
           DoNewTimer (10 * 1000000000)]
       ++ (pre ≫= candidateAction)) /\
  runInner c (pre ++ TimerExpired :: post) final
    = (Returned (errorString "deadline exceeded"),
       [DoReaderAdd {| author := webRTCConnAuthor (uuid c); core.pathName := pathName c;
                       skipAuth := true; credentials := noCredentials |};
        DoWriteICEServers; DoReadOffer; DoNewPeerConnection]
       ++ ((fun t => DoAddTrack (track t)) <$> tracks)
       ++ [DoSetRemoteDescription; DoCreateAnswer; DoSetLocalDescription; DoWriteAnswer;
           DoNewTimer (10 * 1000000000)]
       ++ (pre ≫= candidateAction)
       ++ [DoTimerStop; DoPcClose; DoReaderRemove p (webRTCConnAuthor (uuid c))]) /\
  run c (pre ++ TimerExpired :: post) final RunErr
    = (Some (errorString "deadline exceeded"),
       [DoInnerCtxCancel; DoCtxCancel; DoConnClose;
        DoLogClosed (errorString "deadline exceeded"); DoWgDone; DoCloseClosed]).
Proof.
  intros Henter Hpre.
  assert (runInner c (pre ++ TimerExpired :: post) final
          = (Returned (errorString "deadline exceeded"),
             [DoReaderAdd {| author := webRTCConnAuthor (uuid c); core.pathName := pathName c;
                             skipAuth := true; credentials := noCredentials |};
              DoWriteICEServers; DoReadOffer; DoNewPeerConnection]
             ++ ((fun t => DoAddTrack (track t)) <$> tracks)
             ++ [DoSetRemoteDescription; DoCreateAnswer; DoSetLocalDescription; DoWriteAnswer;
                 DoNewTimer (10 * 1000000000)]
             ++ (pre ≫= candidateAction)
             ++ [DoTimerStop; DoPcClose; DoReaderRemove p (webRTCConnAuthor (uuid c))]))
    as Hrun.
  { rewrite (runInner_entersLoop c p st tracks _ _ Henter). unfold handshake.
    rewrite (candidateLoop_handled pre _ _ Hpre). cbn [candidateLoop fst snd].
    rewrite app_nil_r. unfold act. cbn [fst snd]. rewrite !defer_returned.
    cbn [fst snd]. rewrite defer_returned. cbn.
    rewrite <- !app_assoc. cbn. rewrite <- !app_assoc. reflexivity. }
  split_and!.
  - rewrite (runInner_entersLoop c p st tracks _ _ Henter). unfold handshake.
    rewrite (candidateLoop_waiting pre _ Hpre).
    unfold act. cbn [fst snd]. rewrite ?defer_blocked.
    cbn [fst snd]. rewrite ?defer_blocked. cbn.
    rewrite <- ?app_assoc. cbn. reflexivity.
  - exact Hrun.
  - unfold run. by rewrite Hrun.
Qed.

(** ** The tracks a reader is attached to *)



Lemma registers_done tracks e : registers tracks (e, []).
Proof. by left. Qed.



















End Conn.

End webrtc_conn_proofs.

(** ** The statements at the small instances, and the admission of readers *)

Module session_wrappers.
Import core.

(** C2, as amended. The request an RTSP session sends to [readerAdd] in
    the play direction carries the credentials of the client (the query,
    the address and the id of the connection, the protocol, the request,
    the base URL and the nonce) and does not set [skipAuth]. The path
    manager, as the specification describes it, authenticates the request
    before it admits the reader: when the authentication does not end in
    ok, the session is left as it was and the answer is that of
    [handleAuthError]; when it does, the answer is that of the path, and
    the session takes the path and the stream of it. The request a WebRTC
    connection sends is the first thing [runInner] does; it sets [skipAuth]
    and carries no credentials. *)
Theorem C2_reader_admission_requests
    `{PL : path_manager.PathLayer}
    `{PM : rtsp_session.rtspSessionPathManager} `{CO : rtsp_session.Collaborators}
    `{WM : webrtc_conn.webRTCConnPathManager} `{PE : webrtc_conn.Peer}
    (ctx : rtsp_session.ServerHandlerOnSetupCtx) (w : rtsp_session.World)
    (c : webrtc_conn.webRTCConn) (events : list webrtc_conn.LoopEvent)
    (final : option webrtc_conn.FinalEvent) :
  rtsp_session.playSetup ctx w ->
  (forall req, skipAuth req = false ->
     rtsp_session.readerAdd req = path_manager.readerAdd req) ->
  (exists req,
     rtsp_session.calls (rtsp_session.onSetup ctx w).2
       = rtsp_session.calls w ++ [rtsp_session.CallReaderAdd req] /\
     skipAuth req = false /\
     pathName req = dropFirst (rtsp_session.ctx_Path ctx) /\
     query (credentials req) = rtsp_session.ctx_Query ctx /\
     ip (credentials req) = Some (rtsp_session.conn_ip (rtsp_session.c w)) /\
     proto (credentials req) = authProtocolRTSP /\
     id (credentials req) = Some (rtsp_session.conn_uuid (rtsp_session.c w)) /\
     rtspRequest (credentials req) = Some (rtsp_session.ctx_Request ctx) /\
     rtspBaseURL (credentials req)
       = Some {| Scheme := Scheme (RequestURL (rtsp_session.ctx_Request ctx));
                 Host := Host (RequestURL (rtsp_session.ctx_Request ctx));
                 Path := if String.eqb (rtsp_session.ctx_Query ctx) ""
                         then String.append (dropFirst (rtsp_session.ctx_Path ctx)) "/"
                         else dropFirst (rtsp_session.ctx_Path ctx);
                 RawQuery := if String.eqb (rtsp_session.ctx_Query ctx) ""
                             then rtsp_session.ctx_Query ctx
                             else String.append (rtsp_session.ctx_Query ctx) "/" |} /\
     rtspNonce (credentials req)
       = rtsp_session.authNonce (rtsp_session.c (rtsp_session.onSetup ctx w).2) /\
     (path_manager.authenticate (pathName req) (credentials req) <> path_manager.AuthOk ->
      rtsp_session.s (rtsp_session.onSetup ctx w).2 = rtsp_session.s w /\
      (rtsp_session.onSetup ctx w).1
        = Some ((rtsp_session.handleAuthError
                   (rtsp_session.c (rtsp_session.onSetup ctx w).2)
                   (path_manager.wrappedError
                      (path_manager.authenticate (pathName req) (credentials req)))).1,
                None,
                (rtsp_session.handleAuthError
                   (rtsp_session.c (rtsp_session.onSetup ctx w).2)
                   (path_manager.wrappedError
                      (path_manager.authenticate (pathName req) (credentials req)))).2)) /\
     (path_manager.authenticate (pathName req) (credentials req) = path_manager.AuthOk ->
      rtsp_session.readerAdd req = path_manager.path_readerAdd req /\
      (res_err (path_manager.path_readerAdd req) = None ->
       rtsp_session.s_path (rtsp_session.s (rtsp_session.onSetup ctx w).2)
         = res_path (path_manager.path_readerAdd req) /\
       rtsp_session.s_stream (rtsp_session.s (rtsp_session.onSetup ctx w).2)
         = res_stream (path_manager.path_readerAdd req) /\
       rtsp_session.state (rtsp_session.s (rtsp_session.onSetup ctx w).2)
         = rtsp_session.ServerSessionStatePrePlay))) /\
  (exists req,
     head (webrtc_conn.runInner c events final).2 = Some (webrtc_conn.DoReaderAdd req) /\
     skipAuth req = true /\
     pathName req = webrtc_conn.pathName c /\
     credentials req = noCredentials).
Proof.
  intros Hplay Hspec. split.
  - destruct (rtsp_session_proofs.onSetup_play ctx w Hplay)
      as (req & Hcalls & _ & _ & Hname & Hskip & Hq & Hip & Hproto & Hid & Hreq & Hbase &
          Hnonce & Hres).
    exists req. split_and!; try done.
    + intros Hno. rewrite (Hspec req Hskip) in Hres. unfold path_manager.readerAdd in Hres.
      destruct (path_manager.authenticate (pathName req) (credentials req));
        [done|destruct Hres as [-> ->]; done..].
    + intros Hyes. rewrite (Hspec req Hskip) in Hres |- *.
      unfold path_manager.readerAdd in Hres |- *. rewrite Hyes in Hres |- *.
      split; [done|]. intros Hok. rewrite Hok in Hres. destruct Hres as [_ ->]. done.
  - eexists. split; [reflexivity|]. done.
Qed.

(** C2, as the claim states it, fails for the WebRTC connection: the
    request it sends has [skipAuth] set and the empty credentials, though
    the client has an address. *)
Lemma C2_webrtc_request_has_no_credentials :
  head (webrtc_conn.runInner (PM := webrtc_conn.examplePathManager)
          (PE := webrtc_conn.examplePeer) webrtc_conn.exampleConn [] None).2
  = Some (webrtc_conn.DoReaderAdd
            {| author := webRTCConnAuthor "7f3a"; pathName := "cam";
               skipAuth := true; credentials := noCredentials |}) /\
  ip noCredentials = None /\
  user noCredentials = "" /\
  webrtc_conn.remoteAddr webrtc_conn.exampleConn = "192.0.2.7:51312".
Proof. split_and!; reflexivity. Qed.

Lemma examplePlaySetup p st :
  noLeadingSlash p = false ->
  st = rtsp_session.ServerSessionStateInitial ->
  rtsp_session.playSetup (rtsp_session.exampleSetup p) (rtsp_session.exampleWorld st None).
Proof.
  intros Hp ->. split_and!; [done| |by left].
  intros _. cbn. right. left.
Qed.

Lemma C2_reader_admission_requests_witness :
  exists req,
    rtsp_session.calls
      (rtsp_session.onSetup (PM := rtsp_session.examplePathManager)
         (CO := rtsp_session.exampleCollaborators) (rtsp_session.exampleSetup "/cam")
         (rtsp_session.exampleWorld rtsp_session.ServerSessionStateInitial None)).2
    = [rtsp_session.CallReaderAdd req] /\
    skipAuth req = false /\
    ip (credentials req) = Some "192.0.2.7" /\
    rtspBaseURL (credentials req)
      = Some {| Scheme := "rtsp"; Host := "host:8554"; Path := "cam/"; RawQuery := "" |}.
Proof.
  destruct (C2_reader_admission_requests
              (PL := path_manager.examplePathLayer)
              (PM := rtsp_session.examplePathManager) (CO := rtsp_session.exampleCollaborators)
              (WM := webrtc_conn.examplePathManager) (PE := webrtc_conn.examplePeer)
              (rtsp_session.exampleSetup "/cam")
              (rtsp_session.exampleWorld rtsp_session.ServerSessionStateInitial None)
              webrtc_conn.exampleConn [] None)
    as [(req & Hcalls & Hskip & _ & _ & Hip & _ & _ & _ & Hbase & _) _].
  - by apply examplePlaySetup.
  - intros req _. reflexivity.
  - exists req. split_and!; [exact Hcalls|exact Hskip|exact Hip|exact Hbase].
Defined.

Lemma C7_setup_rejections_witness :
  (fun r => rtsp_session.StatusCode r.1.1)
    <$> (rtsp_session.onSetup (PM := rtsp_session.examplePathManager)
           (CO := rtsp_session.exampleCollaborators) (rtsp_session.exampleSetup "/door")
           (rtsp_session.exampleWorld rtsp_session.ServerSessionStateInitial None)).1
  = Some 404.
Proof.
  apply (rtsp_session_proofs.C7_setup_rejections
           (PM := rtsp_session.examplePathManager) (CO := rtsp_session.exampleCollaborators)
           (rtsp_session.exampleSetup "/door")
           (rtsp_session.exampleWorld rtsp_session.ServerSessionStateInitial None)
           (rtsp_session.exampleSetupRequest "/door")
           (pathErrNoOnePublishing "door")).
  - by apply examplePlaySetup.
  - reflexivity.
  - reflexivity.
Defined.

Lemma C8_recorded_state_transitions_witness :
  rtsp_session.state
    (rtsp_session.s
       (rtsp_session.onAnnounce (PM := rtsp_session.examplePathManager)
          (CO := rtsp_session.exampleCollaborators) (rtsp_session.exampleAnnounce "/cam")
          (rtsp_session.exampleWorld rtsp_session.ServerSessionStateInitial None)).2)
  = rtsp_session.ServerSessionStatePreRecord /\
  rtsp_session.state
    (rtsp_session.s
       (rtsp_session.onSetup (PM := rtsp_session.examplePathManager)
          (CO := rtsp_session.exampleCollaborators) (rtsp_session.exampleSetup "/cam")
          (rtsp_session.exampleWorld rtsp_session.ServerSessionStateInitial None)).2)
  = rtsp_session.ServerSessionStatePrePlay /\
  rtsp_session.state
    (rtsp_session.s
       (rtsp_session.onPlay (CO := rtsp_session.exampleCollaborators)
          (rtsp_session.exampleWorld rtsp_session.ServerSessionStatePrePlay
             (Some {| name := "cam" |}))).2)
  = rtsp_session.ServerSessionStatePlay /\
  rtsp_session.state
    (rtsp_session.s
       (rtsp_session.onRecord (CO := rtsp_session.exampleCollaborators)
          (rtsp_session.exampleWorld rtsp_session.ServerSessionStatePreRecord
             (Some {| name := "cam" |}))).2)
  = rtsp_session.ServerSessionStateRecord /\
  rtsp_session.state
    (rtsp_session.s
       (rtsp_session.onPause
          (rtsp_session.exampleWorld rtsp_session.ServerSessionStatePlay
             (Some {| name := "cam" |}))).2)
  = rtsp_session.ServerSessionStatePrePlay /\
  rtsp_session.state
    (rtsp_session.s
       (rtsp_session.onPause
          (rtsp_session.exampleWorld rtsp_session.ServerSessionStateRecord
             (Some {| name := "cam" |}))).2)
  = rtsp_session.ServerSessionStatePreRecord /\
  rtsp_session.calls
    (rtsp_session.onPause
       (rtsp_session.exampleWorld rtsp_session.ServerSessionStateRecord
          (Some {| name := "cam" |}))).2
  = [rtsp_session.CallPublisherStop {| name := "cam" |} (rtspSessionAuthor "5e2d")].
Proof.
  pose proof (fun st p =>
    rtsp_session_proofs.C8_recorded_state_transitions
      (PM := rtsp_session.examplePathManager) (CO := rtsp_session.exampleCollaborators)
      (rtsp_session.exampleWorld st p) eq_refl) as H.
  split_and!.
  - destruct (H rtsp_session.ServerSessionStateInitial None) as (Hann & _).
    destruct (Hann (rtsp_session.exampleAnnounce "/cam") eq_refl) as (req & _ & _ & Hok).
    exact (proj2 (Hok eq_refl)).
  - destruct (H rtsp_session.ServerSessionStateInitial None) as (_ & Hsetup & _).
    destruct (Hsetup (rtsp_session.exampleSetup "/cam")
                (examplePlaySetup "/cam" _ eq_refl eq_refl)) as (req & _ & Hname & Hok).
    refine (proj2 (Hok {| medias := []; rtspStream := "cam-stream" |} _ _));
      unfold rtsp_session.readerAdd, rtsp_session.examplePathManager, path_manager.readerAdd;
      cbn; rewrite Hname; reflexivity.
  - destruct (H rtsp_session.ServerSessionStatePrePlay (Some {| name := "cam" |}))
      as (_ & _ & Hplay & _).
    exact (proj2 (Hplay eq_refl (ex_intro _ _ eq_refl))).
  - destruct (H rtsp_session.ServerSessionStatePreRecord (Some {| name := "cam" |}))
      as (_ & _ & _ & Hrecord & _).
    exact (proj2 (Hrecord {| name := "cam" |} eq_refl eq_refl)).
  - destruct (H rtsp_session.ServerSessionStatePlay (Some {| name := "cam" |}))
      as (_ & _ & _ & _ & Hpause & _).
    exact (proj2 (Hpause eq_refl)).
  - destruct (H rtsp_session.ServerSessionStateRecord (Some {| name := "cam" |}))
      as (_ & _ & _ & _ & _ & Hpause).
    exact (proj1 (proj2 (Hpause {| name := "cam" |} eq_refl eq_refl))).
  - destruct (H rtsp_session.ServerSessionStateRecord (Some {| name := "cam" |}))
      as (_ & _ & _ & _ & _ & Hpause).
    exact (proj2 (proj2 (Hpause {| name := "cam" |} eq_refl eq_refl))).
Defined.

Lemma exampleConn_entersLoop :
  webrtc_conn.entersLoop (PM := webrtc_conn.examplePathManager) (PE := webrtc_conn.examplePeer)
    webrtc_conn.exampleConn {| name := "cam" |}
    {| medias := webrtc_conn.exampleMedias; rtspStream := "cam-stream" |}
    webrtc_conn.exampleTracks.
Proof.
  exists {| webrtc_conn.sdp_Type := "offer"; webrtc_conn.SDP := "v=0" |},
         {| webrtc_conn.sdp_Type := "answer"; webrtc_conn.SDP := "v=0" |}.
  split_and!; try reflexivity; [done|].
  repeat constructor.
Qed.

Lemma C9_handshake_deadline_witness :
  webrtc_conn.run (PM := webrtc_conn.examplePathManager) (PE := webrtc_conn.examplePeer)
    webrtc_conn.exampleConn
    ([webrtc_conn.LocalCandidate "candidate:1 1 udp 2130706431 192.0.2.1 8189 typ host" None;
      webrtc_conn.RemoteCandidate "candidate:2 1 udp 1694498815 192.0.2.7 51312 typ srflx" None]
     ++ webrtc_conn.TimerExpired :: [webrtc_conn.PcConnected])
    None webrtc_conn.RunErr
  = (Some (errorString "deadline exceeded"),
     [webrtc_conn.DoInnerCtxCancel; webrtc_conn.DoCtxCancel; webrtc_conn.DoConnClose;
      webrtc_conn.DoLogClosed (errorString "deadline exceeded"); webrtc_conn.DoWgDone;
      webrtc_conn.DoCloseClosed]).
Proof.
  apply (webrtc_conn_proofs.C9_handshake_deadline
           (PM := webrtc_conn.examplePathManager) (PE := webrtc_conn.examplePeer)
           webrtc_conn.exampleConn {| name := "cam" |}
           {| medias := webrtc_conn.exampleMedias; rtspStream := "cam-stream" |}
           webrtc_conn.exampleTracks).
  - exact exampleConn_entersLoop.
  - repeat constructor.
Defined.



End session_wrappers.
